(** * container-retention-policy: retention filter, paginator, rate limiter
      and bounded deletion, embedded from [main/models.py], [main/main.py],
      [main/utils.py] and [main/api.py].

    Conventions of the embedding.
    - Python [int] is [Z]; a [timedelta] is a signed number of
      microseconds.  An aware [datetime] (the timestamps of a package
      version, the cut-off) is the instant it denotes, in microseconds.  A
      naive [datetime] (what [datetime.now()] and [datetime.fromtimestamp]
      return) is a wall-clock reading of the local time zone, in
      microseconds from the reading [1970-01-01T00:00:00]; the conversion
      from POSIX time follows CPython's [_datetimemodule.c] on a platform
      with a 64-bit [time_t], with the year range [1..9999] and the errors
      it raises.
    - Each pydantic model is a record in a module of the same name, with the
      source's field names.
    - Library functions the code calls ([fnmatch.fnmatch], the builtin
      [int]) are section variables: every theorem holds for each of them.
      The time zone of the process (the C library's [localtime_r]) is a
      field of the world the coroutines run in.
    - An [async def] whose [await]s matter to the other tasks is a
      [Coroutine]: a program that gives up control at each [await].  Run
      without other tasks it is a computation in the monad [M], and that
      is the form the sequential statements use.
    - [print] appends a structured line to a log instead of rendered text. *)

From Stdlib Require Import ZArith String Ascii List Bool Lia DecimalString.
From Stdlib Require DecimalPos DecimalZ.
From stdpp Require Import base option list gmap strings.
Import ListNotations.

Local Open Scope string_scope.
Local Open Scope list_scope.
Local Open Scope Z_scope.

Set Warnings "-register-all".

(** ** Data model ([main/models.py]) *)

Definition datetime := Z.
Definition timedelta := Z.

(** [timedelta(seconds=s)] *)
Definition timedelta_seconds (s : Z) : timedelta := s * 1000000.

Inductive TimestampType := UPDATED_AT | CREATED_AT.

Inductive AccountType := ORG | PERSONAL.

Module ContainerModel.
Record t := { tags : list string }.
End ContainerModel.

(** [package_type] is the literal ['container'] and carries no information. *)
Module MetadataModel.
Record t := { container : ContainerModel.t }.
End MetadataModel.

Module PackageVersionResponse.
Record t := {
  id : Z;
  name : string;
  metadata : MetadataModel.t;
  created_at : option datetime;
  updated_at : option datetime
}.
End PackageVersionResponse.

Module Inputs.
Record t := {
  image_names : list string;
  cut_off : datetime;
  timestamp_to_use : TimestampType;
  account_type : AccountType;
  org_name : option string;
  untagged_only : bool;
  skip_tags : list string;
  keep_at_least : Z;          (* Field(ge=0) *)
  filter_tags : list string;
  filter_include_untagged : bool
}.
End Inputs.

(** [getattr(version, inputs.timestamp_to_use.value)] *)
Definition getattr_timestamp (version : PackageVersionResponse.t)
  (which : TimestampType) : option datetime :=
match which with
| UPDATED_AT => PackageVersionResponse.updated_at version
| CREATED_AT => PackageVersionResponse.created_at version
end.

(** The arguments of one [GithubAPI.delete_package(...)] coroutine wrapped by
  [asyncio.create_task]; the HTTP client and the semaphore are the run's
  single shared objects and are not repeated in each task. *)
Module Task.
Record t := {
  account_type : AccountType;
  org_name : option string;
  image_name : string;
  version_id : Z
}.
End Task.

(** Lines written by [print], by kind and arguments. *)
Inductive Printed :=
| SkippingUnableToParse (version_id : Z)
| RateLimitedTerminating (delta : timedelta)
| RateLimitSleeping (delta : timedelta)
| CouldNotDelete (image_name_with_tag : string) (status_code : Z)
| DeletedOldImage (image_name_with_tag : string)
| DeleteTimedOut (image_name : string) (error : string).

(** ** Retention filter ([main/main.py], [select_package_versions_to_delete]) *)

Section RetentionFilter.

(** [fnmatch.fnmatch(name, pat)] *)
Variable fnmatch : string -> string -> bool.

(** [any(fnmatch(tag, pat) for tag in image_tags)] *)
Definition any_tag_matches (image_tags : list string) (pat : string) : bool :=
  existsb (fun tag => fnmatch tag pat) image_tags.

(** [for filter_tag in inputs.filter_tags: if any(...): delete_image = True; break] *)
Fixpoint filter_tags_loop (image_tags filter_tags : list string)
    (delete_image : bool) : bool :=
  match filter_tags with
  | [] => delete_image
  | filter_tag :: rest =>
      if any_tag_matches image_tags filter_tag then true
      else filter_tags_loop image_tags rest delete_image
  end.

(** [for skip_tag in inputs.skip_tags: if any(...): delete_image = False] *)
Fixpoint skip_tags_loop (image_tags skip_tags : list string)
    (delete_image : bool) : bool :=
  match skip_tags with
  | [] => delete_image
  | skip_tag :: rest =>
      skip_tags_loop image_tags rest
        (if any_tag_matches image_tags skip_tag then false else delete_image)
  end.

(** Truth value of a Python list. *)
Definition truthy {A} (l : list A) : bool :=
  match l with [] => false | _ :: _ => true end.

(** The local variables that survive one iteration of the [async for]. *)
Record LoopState := {
  index : Z;
  tasks : list Task.t;
  printed : list Printed
}.

Definition loop_start : LoopState :=
  {| index := 0; tasks := []; printed := [] |}.

Definition delete_task (image_name : string) (inputs : Inputs.t)
    (version : PackageVersionResponse.t) : Task.t :=
  {| Task.account_type := Inputs.account_type inputs;
     Task.org_name := Inputs.org_name inputs;
     Task.image_name := image_name;
     Task.version_id := PackageVersionResponse.id version |}.

(** One iteration of the loop, lines 40-103.  A [continue] returns the
    state as it was; only the last line increments [index]. *)
Definition loop_body (image_name : string) (inputs : Inputs.t)
    (st : LoopState) (version : PackageVersionResponse.t) : LoopState :=
  if (0 <? Inputs.keep_at_least inputs)
     && (Inputs.keep_at_least inputs =? index st)
  then st
  else
    match getattr_timestamp version (Inputs.timestamp_to_use inputs) with
    | None =>
        {| index := index st; tasks := tasks st;
           printed := printed st ++
             [SkippingUnableToParse (PackageVersionResponse.id version)] |}
    | Some updated_or_created_at =>
        if Inputs.cut_off inputs <? updated_or_created_at then st
        else
          (* [metadata], [container] and [tags] are required fields, so the
             three [hasattr] tests hold for every parsed version *)
          let image_tags :=
            ContainerModel.tags
              (MetadataModel.container
                 (PackageVersionResponse.metadata version)) in
          if Inputs.untagged_only inputs && truthy image_tags then st
          else if negb (truthy image_tags)
                  && negb (Inputs.filter_include_untagged inputs) then st
          else
            let delete_image := negb (truthy (Inputs.filter_tags inputs)) in
            let delete_image :=
              filter_tags_loop image_tags (Inputs.filter_tags inputs)
                delete_image in
            let delete_image :=
              skip_tags_loop image_tags (Inputs.skip_tags inputs)
                delete_image in
            {| index := index st + 1;
               tasks := if delete_image
                        then tasks st ++ [delete_task image_name inputs version]
                        else tasks st;
               printed := printed st |}
    end.

(** The loop over the versions the listing delivers, from a given state. *)
Definition loop_from (image_name : string) (inputs : Inputs.t)
    (st : LoopState) (versions : list PackageVersionResponse.t) : LoopState :=
  fold_left (loop_body image_name inputs) versions st.

Definition run_loop (image_name : string) (inputs : Inputs.t)
    (versions : list PackageVersionResponse.t) : LoopState :=
  loop_from image_name inputs loop_start versions.

(** [select_package_versions_to_delete]: the tasks created for the versions
    that [GithubAPI.list_package_versions] yields, in order. *)
Definition select_package_versions_to_delete (image_name : string)
    (inputs : Inputs.t) (versions : list PackageVersionResponse.t)
    : list Task.t :=
  tasks (run_loop image_name inputs versions).

End RetentionFilter.

(** ** HTTP responses, exceptions and the effects of the run *)

(** A decoded JSON document.  Numbers are the integers; the members of a
    [JObject] are the items of the decoded [dict], with distinct keys. *)
Inductive JSON :=
| JNull
| JBool (b : bool)
| JNumber (n : Z)
| JString (s : string)
| JArray (items : list JSON)
| JObject (members : list (string * JSON)).

(** An [httpx.Response]: [headers] is keyed by the lower-case field name,
    [json] is what [response.json()] decodes, [None] when the body is not
    JSON and the call raises. *)
Module Response.
Record t := {
  status_code : Z;
  headers : gmap string string;
  json : option JSON
}.
End Response.

(** [response.is_error]: a 4xx or 5xx status. *)
Definition is_error (response : Response.t) : bool :=
  (400 <=? Response.status_code response)
  && (Response.status_code response <=? 599).

(** [response.is_success]: a 2xx status. *)
Definition is_success (response : Response.t) : bool :=
  (200 <=? Response.status_code response)
  && (Response.status_code response <=? 299).

Inductive Exception :=
| TimeoutException (message : string)
| TransportError (message : string)
| HTTPStatusError (status_code : Z)
| KeyError (key : string)
| ValueError
| OverflowError
| OSError
| TypeError
| JSONDecodeError.

(** What awaiting a request of the client gives back. *)
Inductive HttpResult :=
| HttpResponse (response : Response.t)
| HttpRaises (e : Exception).

(** The [httpx.AsyncClient] of the run, by the answer to each URL. *)
Module AsyncClient.
Record t := {
  get : string -> HttpResult;
  delete : string -> HttpResult
}.
End AsyncClient.

(** Everything the coroutines of [utils.py] and [api.py] read or change:
    the system clock (POSIX time in microseconds), the time zone of the
    process, the printed lines, the durations slept, the items a generator
    has yielded to its consumer, the three module-level lists of [main.py]
    and the value of the semaphore.

    [localtime t] is what the C library's [localtime_r] gives for the POSIX
    time [t] (in seconds): the local wall-clock reading, counted in seconds
    from the reading [1970-01-01T00:00:00], or [None] when the call
    fails. *)
Record World := {
  now : Z;
  localtime : Z -> option Z;
  stdout : list Printed;
  slept : list timedelta;
  yielded : list JSON;
  deleted : list string;
  failed : list string;
  needs_github_assistance : list string;
  semaphore : Z
}.

(** Why a coroutine does not get further in this model. *)
Inductive Hang := NoPermit | OutOfFuel.

(** How a coroutine ends: it returns, an exception leaves it, [exit(code)]
    ends the process, or it does not get further. *)
Inductive Outcome (A : Type) :=
| Returns (a : A)
| Raises (e : Exception)
| Exits (code : Z)
| Hangs (why : Hang).

Arguments Returns {A} a.
Arguments Raises {A} e.
Arguments Exits {A} code.
Arguments Hangs {A} why.

Definition M (A : Type) : Type := World -> Outcome A * World.

#[global] Instance M_ret : MRet M := fun A a w => (Returns a, w).

#[global] Instance M_bind : MBind M := fun A B f m w =>
  match m w with
  | (Returns a, w') => f a w'
  | (Raises e, w') => (Raises e, w')
  | (Exits code, w') => (Exits code, w')
  | (Hangs why, w') => (Hangs why, w')
  end.

Definition raise {A} (e : Exception) : M A := fun w => (Raises e, w).

(** [exit(code)] *)
Definition exit {A} (code : Z) : M A := fun w => (Exits code, w).

Definition hang {A} (why : Hang) : M A := fun w => (Hangs why, w).

Definition print (line : Printed) : M unit := fun w =>
  (Returns tt,
   {| now := now w; localtime := localtime w;
      stdout := stdout w ++ [line]; slept := slept w;
      yielded := yielded w; deleted := deleted w; failed := failed w;
      needs_github_assistance := needs_github_assistance w;
      semaphore := semaphore w |}).

(** [await asyncio.sleep(delay)]: the task resumes once [delay] has passed;
    a delay that is not positive passes no time. *)
Definition asyncio_sleep (delay : timedelta) : M unit := fun w =>
  (Returns tt,
   {| now := now w + Z.max 0 delay; localtime := localtime w;
      stdout := stdout w;
      slept := slept w ++ [delay];
      yielded := yielded w; deleted := deleted w; failed := failed w;
      needs_github_assistance := needs_github_assistance w;
      semaphore := semaphore w |}).

(** [yield item] *)
Definition yield (item : JSON) : M unit := fun w =>
  (Returns tt,
   {| now := now w; localtime := localtime w;
      stdout := stdout w; slept := slept w;
      yielded := yielded w ++ [item]; deleted := deleted w; failed := failed w;
      needs_github_assistance := needs_github_assistance w;
      semaphore := semaphore w |}).

Definition deleted_append (s : string) : M unit := fun w =>
  (Returns tt,
   {| now := now w; localtime := localtime w;
      stdout := stdout w; slept := slept w;
      yielded := yielded w; deleted := deleted w ++ [s]; failed := failed w;
      needs_github_assistance := needs_github_assistance w;
      semaphore := semaphore w |}).

Definition failed_append (s : string) : M unit := fun w =>
  (Returns tt,
   {| now := now w; localtime := localtime w;
      stdout := stdout w; slept := slept w;
      yielded := yielded w; deleted := deleted w; failed := failed w ++ [s];
      needs_github_assistance := needs_github_assistance w;
      semaphore := semaphore w |}).

Definition needs_github_assistance_append (s : string) : M unit := fun w =>
  (Returns tt,
   {| now := now w; localtime := localtime w;
      stdout := stdout w; slept := slept w;
      yielded := yielded w; deleted := deleted w; failed := failed w;
      needs_github_assistance := needs_github_assistance w ++ [s];
      semaphore := semaphore w |}).

Definition set_semaphore (value : Z) (w : World) : World :=
  {| now := now w; localtime := localtime w;
     stdout := stdout w; slept := slept w;
     yielded := yielded w; deleted := deleted w; failed := failed w;
     needs_github_assistance := needs_github_assistance w;
     semaphore := value |}.

(** [await semaphore.acquire()]: takes a permit when one is free, and waits
    otherwise. *)
Definition semaphore_acquire : M unit := fun w =>
  if 0 <? semaphore w
  then (Returns tt, set_semaphore (semaphore w - 1) w)
  else (Hangs NoPermit, w).

(** [semaphore.release()] *)
Definition semaphore_release : M unit := fun w =>
  (Returns tt, set_semaphore (semaphore w + 1) w).

(** Leaving an [async with semaphore:] block: the permit is released however
    the block ends. *)
Definition release_after {A} (block : M A) : M A := fun w =>
  match block w with
  | (Hangs why, w') => (Hangs why, w')
  | (o, w') => (o, snd (semaphore_release w'))
  end.

(** [async with semaphore: block] *)
Definition async_with_semaphore {A} (block : M A) : M A :=
  semaphore_acquire;; release_after block.

(** [try: block except <handled> as e: handler(e)]; [handler] is [None] on
    the exceptions the clause does not name. *)
Definition try_except {A} (block : M A)
    (handler : Exception -> option (M A)) : M A := fun w =>
  match block w with
  | (Raises e, w') =>
      match handler e with
      | Some h => h w'
      | None => (Raises e, w')
      end
  | other => other
  end.

(** [await http_client.get(url)] and [await http_client.delete(url)] *)
Definition await (answer : HttpResult) : M Response.t :=
  match answer with
  | HttpResponse response => mret response
  | HttpRaises e => raise e
  end.

(** [response.headers[key]] *)
Definition header (response : Response.t) (key : string) : M string :=
  match Response.headers response !! key with
  | Some value => mret value
  | None => raise (KeyError key)
  end.

(** [response.json()] *)
Definition response_json (response : Response.t) : M JSON :=
  match Response.json response with
  | Some document => mret document
  | None => raise JSONDecodeError
  end.

(** [response.raise_for_status()]: raises unless the status is a 2xx. *)
Definition raise_for_status (response : Response.t) : M unit :=
  if is_success response then mret tt
  else raise (HTTPStatusError (Response.status_code response)).

(** ** Constants of [main/main.py] *)

Definition GITHUB_ASSISTANCE_MSG : string :=
  "Publicly visible package versions with more than "
  +:+ "5000 downloads cannot be deleted. "
  +:+ "Contact GitHub support for further assistance.".

(** [MAX_SLEEP = 60 * 10], in seconds *)
Definition MAX_SLEEP : Z := 60 * 10.

(** [Semaphore(50)], created once in [main] and handed to every deletion *)
Definition main_semaphore : Z := 50.

(** Local time on a machine set to UTC, as glibc's [localtime_r] gives it:
    the reading is the POSIX time itself, and the call fails when the year
    does not fit an [int]. *)
Definition utc (t : Z) : option Z :=
  if (-67768040609740800 <=? t) && (t <=? 67768036191676799)
  then Some t
  else None.

(** The world when [main] starts at clock reading [t] on a machine set to
    UTC: the three lists are empty and every permit is free. *)
Definition world_at_start (t : Z) : World :=
  {| now := t; localtime := utc; stdout := []; slept := []; yielded := [];
     deleted := []; failed := []; needs_github_assistance := [];
     semaphore := main_semaphore |}.

(** ** The [link] header and [rel_regex]

    The pattern reads: a left angle bracket, group 1 of any characters other
    than angle brackets, a right angle bracket, a semicolon, a space, the
    letters rel, an equals sign, a double quote, group 2 of one or more word
    characters, and a double quote. *)

Definition char_code (c : ascii) : Z := Z.of_nat (nat_of_ascii c).

(** [\w], on ASCII text: a letter, a digit or the underscore *)
Definition is_word_char (c : ascii) : bool :=
  let n := char_code c in
  ((48 <=? n) && (n <=? 57)) || ((65 <=? n) && (n <=? 90))
  || ((97 <=? n) && (n <=? 122)) || (n =? 95).

(** [[^<>]] *)
Definition is_not_angle (c : ascii) : bool :=
  negb ((char_code c =? 60) || (char_code c =? 62)).

(** The longest prefix of characters in a class, and what follows it. *)
Fixpoint span (class : ascii -> bool) (s : list ascii)
    : list ascii * list ascii :=
  match s with
  | [] => ([], [])
  | c :: rest =>
      if class c
      then let (taken, left) := span class rest in (c :: taken, left)
      else ([], s)
  end.

Fixpoint strip_prefix (prefix s : list ascii) : option (list ascii) :=
  match prefix, s with
  | [], _ => Some s
  | p :: prefix', c :: s' =>
      if Ascii.eqb p c then strip_prefix prefix' s' else None
  | _ :: _, [] => None
  end.

Definition double_quote : ascii := "034"%char.

(** A match of [rel_regex] that starts at the head of [s]: its two groups
    and the text after the match.  Each class is followed by a character
    outside it, so the greedy repetition never has to give characters back. *)
Definition rel_regex_match (s : list ascii)
    : option (string * string * list ascii) :=
  match s with
  | c :: s1 =>
      if char_code c =? 60 then
        let (url, s2) := span is_not_angle s1 in
        match strip_prefix
                (list_ascii_of_string ">; rel=" ++ [double_quote]) s2 with
        | Some s3 =>
            let (rel, s4) := span is_word_char s3 in
            match rel, s4 with
            | _ :: _, q :: s5 =>
                if Ascii.eqb q double_quote
                then Some (string_of_list_ascii url,
                           string_of_list_ascii rel, s5)
                else None
            | _, _ => None
            end
        | None => None
        end
      else None
  | [] => None
  end.

(** [rel_regex.findall]: the matches from left to right, each search
    resuming where the previous match ended. *)
Fixpoint findall_from (fuel : nat) (s : list ascii) : list (string * string) :=
  match fuel with
  | O => []
  | S fuel' =>
      match s with
      | [] => []
      | _ :: s' =>
          match rel_regex_match s with
          | Some (url, rel, rest) => (url, rel) :: findall_from fuel' rest
          | None => findall_from fuel' s'
          end
      end
  end.

Definition rel_regex_findall (link : string) : list (string * string) :=
  let s := list_ascii_of_string link in
  findall_from (List.length s) s.

(** [{rel: url for url, rel in rel_regex.findall(link)}]: a later pair
    replaces an earlier one with the same relation. *)
Definition rels_of_link (link : string) : gmap string string :=
  fold_left (fun (rels : gmap string string) (pair : string * string) =>
               <[pair.2 := pair.1]> rels)
            (rel_regex_findall link) ∅.

(** ** [main/utils.py] *)

(** [str(n)] for an [int] *)
Definition str (n : Z) : string := NilZero.string_of_int (Z.to_int n).

(** *** Local time

    [datetime.now()] and [datetime.fromtimestamp] of CPython, for a naive
    result: both go through [datetime_from_timet_and_us] with
    [_PyTime_localtime]. *)

(** The wall-clock readings [0001-01-01T00:00:00] and
    [9999-12-31T23:59:59], the first and the last second of the years
    [MINYEAR..MAXYEAR], in seconds from the reading [1970-01-01T00:00:00]. *)
Definition MINYEAR_start : Z := -62135596800.
Definition MAXYEAR_end : Z := 253402300799.

(** [max_fold_seconds = 24 * 3600] *)
Definition max_fold_seconds : Z := 24 * 3600.

(** [local(epoch + t)]: the wall-clock seconds of the POSIX time [t].
    [_PyTime_localtime] raises [OSError] when [localtime_r] fails, and
    [utc_to_seconds] raises [ValueError] when the year of the reading is
    outside [MINYEAR..MAXYEAR]. *)
Definition local (localtime : Z -> option Z) (t : Z) : Exception + Z :=
  match localtime t with
  | None => inl OSError
  | Some seconds =>
      if (MINYEAR_start <=? seconds) && (seconds <=? MAXYEAR_end)
      then inr seconds
      else inl ValueError
  end.

(** [datetime_from_timet_and_us(cls, _PyTime_localtime, timet, us, None)]:
    the reading of [timet], after the readings that detect a fold have been
    taken too (one of 24 hours earlier and, when the offset has gone down
    since, one more); the fold itself plays no part in the arithmetic of
    naive datetimes and is not kept. *)
Definition datetime_from_timet_and_us (localtime : Z -> option Z)
    (timet us : Z) : Exception + datetime :=
  match local localtime timet with
  | inl e => inl e
  | inr result_seconds =>
      match local localtime (timet - max_fold_seconds) with
      | inl e => inl e
      | inr probe_seconds =>
          let transition :=
            result_seconds - probe_seconds - max_fold_seconds in
          if transition <? 0 then
            match local localtime (timet + transition) with
            | inl e => inl e
            | inr _ => inr (result_seconds * 1000000 + us)
            end
          else inr (result_seconds * 1000000 + us)
      end
  end.

(** [datetime.fromtimestamp(timestamp)] for an [int]: [OverflowError] when
    the timestamp does not fit [time_t]. *)
Definition datetime_fromtimestamp (localtime : Z -> option Z)
    (timestamp : Z) : Exception + datetime :=
  if (- 2 ^ 63 <=? timestamp) && (timestamp <? 2 ^ 63)
  then datetime_from_timet_and_us localtime timestamp 0
  else inl OverflowError.

(** [datetime.now()] when the system clock reads [clock] microseconds: the
    clock is split into seconds and microseconds, rounding down. *)
Definition datetime_at (localtime : Z -> option Z) (clock : Z)
    : Exception + datetime :=
  datetime_from_timet_and_us localtime (clock / 1000000) (clock mod 1000000).

(** A library call that returns a value or raises and changes nothing. *)
Definition call {A} (result : Exception + A) : M A :=
  match result with
  | inr a => mret a
  | inl e => raise e
  end.

(** [datetime.fromtimestamp(timestamp)] *)
Definition fromtimestamp (timestamp : Z) : M datetime := fun w =>
  call (datetime_fromtimestamp (localtime w) timestamp) w.

(** [datetime.now()] *)
Definition datetime_now : M datetime := fun w =>
  call (datetime_at (localtime w) (now w)) w.

(** *** JSON documents *)

(** What iterating over a decoded document yields: the elements of a list,
    the keys of a dict, the characters of a string; [None] for the values
    that are not iterable. *)
Definition json_items (document : JSON) : option (list JSON) :=
  match document with
  | JArray items => Some items
  | JObject members => Some (map (fun member => JString member.1) members)
  | JString s =>
      Some (map (fun c => JString (String c EmptyString))
                (list_ascii_of_string s))
  | _ => None
  end.

(** [for item in document], up to the [TypeError] of a value that is not
    iterable *)
Definition json_iter (document : JSON) : M (list JSON) :=
  match json_items document with
  | Some items => mret items
  | None => raise TypeError
  end.

(** [document[key]] for a string key *)
Definition json_getitem (document : JSON) (key : string) : M JSON :=
  match document with
  | JObject members =>
      match List.find (fun member => String.eqb member.1 key) members with
      | Some member => mret member.2
      | None => raise (KeyError key)
      end
  | _ => raise TypeError
  end.

(** [value == s] for a string [s] *)
Definition json_eq_str (value : JSON) (s : string) : bool :=
  match value with
  | JString s' => String.eqb s' s
  | _ => false
  end.

Fixpoint yield_all (items : list JSON) : M unit :=
  match items with
  | [] => mret tt
  | item :: rest => yield item;; yield_all rest
  end.

(** The builtin [int] on a header value; [int_of_str] is [None] when it
    raises [ValueError]. *)
Definition int (int_of_str : string -> option Z) (s : string) : M Z :=
  match int_of_str s with
  | Some n => mret n
  | None => raise ValueError
  end.

Definition post_deletion_output (response : Response.t) (image_name : string)
    (version_id : Z) : M unit :=
  let image_name_with_tag := image_name +:+ ":" +:+ str version_id in
  let record_failure : M unit :=
    failed_append image_name_with_tag;;
    _ ← response_json response;
    print (CouldNotDelete image_name_with_tag (Response.status_code response)) in
  if is_error response then
    if Response.status_code response =? 400 then
      document ← response_json response;
      message ← json_getitem document "message";
      if json_eq_str message GITHUB_ASSISTANCE_MSG
      then needs_github_assistance_append image_name_with_tag
      else record_failure
    else record_failure
  else
    deleted_append image_name_with_tag;;
    print (DeletedOldImage image_name_with_tag).

(** ** Coroutines

    A coroutine runs until it ends or reaches an [await] that gives up
    control: [await semaphore.acquire()] (behind [async with semaphore]),
    [await http_client.delete(url)] and [await asyncio.sleep(delay)].
    [Sync m k] is code [m] that runs without giving up control, followed by
    [k] on its value. *)
Inductive Coroutine (A : Type) : Type :=
| Return (a : A)
| Sync {B : Type} (m : M B) (k : B -> Coroutine A)
| AwaitAcquire (k : Coroutine A)
| AwaitDelete (http_client : AsyncClient.t) (url : string)
    (k : HttpResult -> Coroutine A)
| AwaitSleep (delay : timedelta) (k : Coroutine A).

Arguments Return {A} a.
Arguments Sync {A B} m k.
Arguments AwaitAcquire {A} k.
Arguments AwaitDelete {A} http_client url k.
Arguments AwaitSleep {A} delay k.

Fixpoint coroutine_bind {A B} (f : A -> Coroutine B) (c : Coroutine A)
    : Coroutine B :=
  match c with
  | Return a => f a
  | Sync m k => Sync m (fun b => coroutine_bind f (k b))
  | AwaitAcquire k => AwaitAcquire (coroutine_bind f k)
  | AwaitDelete http_client url k =>
      AwaitDelete http_client url (fun answer => coroutine_bind f (k answer))
  | AwaitSleep delay k => AwaitSleep delay (coroutine_bind f k)
  end.

#[global] Instance Coroutine_ret : MRet Coroutine := fun A a => Return a.

#[global] Instance Coroutine_bind : MBind Coroutine :=
  fun A B f c => coroutine_bind f c.

(** Code that does not give up control, as a coroutine. *)
Definition run {A} (m : M A) : Coroutine A := Sync m Return.

(** [await http_client.delete(url)], up to the exception it may raise *)
Definition await_delete (http_client : AsyncClient.t) (url : string)
    : Coroutine HttpResult :=
  AwaitDelete http_client url Return.

(** [await asyncio.sleep(delay)] *)
Definition await_sleep (delay : timedelta) : Coroutine unit :=
  AwaitSleep delay (Return tt).

(** [m] with the exception it raises handed back as a value. *)
Definition attempt {A} (m : M A) : M (Exception + A) := fun w =>
  match m w with
  | (Returns a, w') => (Returns (inr a), w')
  | (Raises e, w') => (Returns (inl e), w')
  | (Exits code, w') => (Exits code, w')
  | (Hangs why, w') => (Hangs why, w')
  end.

(** [m], with the permit released when an exception or [exit] leaves it. *)
Definition release_unless_returns {A} (m : M A) : M A := fun w =>
  match m w with
  | (Returns a, w') => (Returns a, w')
  | (Hangs why, w') => (Hangs why, w')
  | (o, w') => (o, snd (semaphore_release w'))
  end.

(** The coroutine run with no other task around: a permit is taken when
    one is free, the answer to a request is the client's, and a sleep lasts
    as long as asked. *)
Fixpoint run_alone {A} (c : Coroutine A) : M A :=
  match c with
  | Return a => mret a
  | Sync m k => b ← m; run_alone (k b)
  | AwaitAcquire k => semaphore_acquire;; run_alone k
  | AwaitDelete http_client url k =>
      run_alone (k (AsyncClient.delete http_client url))
  | AwaitSleep delay k => asyncio_sleep delay;; run_alone k
  end.

Module Async.

(** [try: block except <handled> as e: handler(e)] *)
Fixpoint try_except {A} (block : Coroutine A)
    (handler : Exception -> option (Coroutine A)) : Coroutine A :=
  match block with
  | Return a => Return a
  | Sync m k =>
      Sync (attempt m)
        (fun result =>
           match result with
           | inr b => try_except (k b) handler
           | inl e =>
               match handler e with
               | Some h => h
               | None => run (raise e)
               end
           end)
  | AwaitAcquire k => AwaitAcquire (try_except k handler)
  | AwaitDelete http_client url k =>
      AwaitDelete http_client url (fun answer => try_except (k answer) handler)
  | AwaitSleep delay k => AwaitSleep delay (try_except k handler)
  end.

(** Leaving an [async with semaphore:] block: the permit is released
    however the block ends. *)
Fixpoint release_after {A} (block : Coroutine A) : Coroutine A :=
  match block with
  | Return a => Sync semaphore_release (fun _ => Return a)
  | Sync m k => Sync (release_unless_returns m) (fun b => release_after (k b))
  | AwaitAcquire k => AwaitAcquire (release_after k)
  | AwaitDelete http_client url k =>
      AwaitDelete http_client url (fun answer => release_after (k answer))
  | AwaitSleep delay k => AwaitSleep delay (release_after k)
  end.

(** [async with semaphore: block] *)
Definition async_with_semaphore {A} (block : Coroutine A) : Coroutine A :=
  AwaitAcquire (release_after block).

Section Coroutines.

Variable int_of_str : string -> option Z.

Definition wait_for_rate_limit (response : Response.t)
    (eligible_for_secondary_limit : bool) : Coroutine unit :=
  remaining_header ← run (header response "x-ratelimit-remaining");
  remaining ← run (int int_of_str remaining_header);
  if remaining =? 0 then
    reset_header ← run (header response "x-ratelimit-reset");
    reset ← run (int int_of_str reset_header);
    ratelimit_reset ← run (fromtimestamp reset);
    current ← run datetime_now;
    let delta := ratelimit_reset - current in
    if timedelta_seconds MAX_SLEEP <? delta then
      run (print (RateLimitedTerminating delta));;
      run (exit 1)
    else if timedelta_seconds 0 <? delta then
      run (print (RateLimitSleeping delta));;
      await_sleep delta
    else mret tt
  else if eligible_for_secondary_limit then
    await_sleep (timedelta_seconds 1)
  else mret tt.

Definition _delete_package_versions (url : string)
    (http_client : AsyncClient.t) (image_name : string) (version_id : Z)
    : Coroutine unit :=
  async_with_semaphore
    (try_except
       (answer ← await_delete http_client url;
        response ← run (await answer);
        wait_for_rate_limit response true;;
        run (post_deletion_output response image_name version_id))
       (fun e =>
          match e with
          | TimeoutException message =>
              Some (run (print (DeleteTimedOut image_name message)))
          | _ => None
          end)).

End Coroutines.

End Async.

(** ** The coroutines of [main/utils.py] and [main/api.py], run alone *)

Section Utils.

Variable int_of_str : string -> option Z.

Definition wait_for_rate_limit (response : Response.t)
    (eligible_for_secondary_limit : bool) : M unit :=
  run_alone
    (Async.wait_for_rate_limit int_of_str response eligible_for_secondary_limit).

(** The [while 'next' in rels] loop of [get_all_pages]; [fuel] bounds the
    number of pages fetched. *)
Fixpoint pages_loop (fuel : nat) (http_client : AsyncClient.t)
    (rels : gmap string string) : M unit :=
  match rels !! "next" with
  | None => mret tt
  | Some next_url =>
      match fuel with
      | O => hang OutOfFuel
      | S fuel' =>
          response ← await (AsyncClient.get http_client next_url);
          raise_for_status response;;
          document ← response_json response;
          items ← json_iter document;
          yield_all items;;
          link ← header response "link";
          let rels := rels_of_link link in
          wait_for_rate_limit response false;;
          pages_loop fuel' http_client rels
      end
  end.

Definition get_all_pages (fuel : nat) (url : string)
    (http_client : AsyncClient.t) : M unit :=
  pages_loop fuel http_client {[ "next" := url ]}.

(** ** [main/api.py] *)

Definition _delete_package_versions (url : string)
    (http_client : AsyncClient.t) (image_name : string) (version_id : Z)
    : M unit :=
  run_alone
    (Async._delete_package_versions int_of_str url http_client image_name
       version_id).

End Utils.

(** ** The deletions of a run on the event loop

    The event loop runs one coroutine at a time, up to its next [await]
    that gives up control.  A call of [_delete_package_versions] is
    [Created] by [asyncio.create_task]; once started it is [Acquiring]
    while no permit is free, [Requesting] while its request is in flight,
    [Sleeping] until its timer is due, and [Ended] afterwards.  Beside its
    state a job carries the number of permits it has taken and not given
    back.  The order in which the loop resumes the jobs, and so the order
    in which waiting jobs get their permits, is left open: every order is a
    run. *)

Inductive JobState :=
| Created (c : Coroutine unit)
| Acquiring (k : Coroutine unit)
| Requesting (http_client : AsyncClient.t) (url : string)
    (k : HttpResult -> Coroutine unit)
| Sleeping (until : Z) (k : Coroutine unit)
| Ended (outcome : Outcome unit).

Module Job.
Record t := {
  state : JobState;
  permits : Z
}.
End Job.

Record Run := {
  world : World;
  jobs : list Job.t;
  exit_code : option Z
}.

(** [Submit] is [asyncio.create_task] on a deletion; [Resume] is the loop
    giving control to a job (to start it, because a permit may be free,
    because the answer to its request has arrived or because its timer is
    due); [Tick] is time passing. *)
Inductive Event :=
| Submit (url image_name : string) (version_id : Z)
| Resume (job : nat)
| Tick (elapsed : timedelta).

(** [asyncio.sleep(delay)] is entered: the duration is noted, and the clock
    is left to [Tick]. *)
Definition sleep_starts (delay : timedelta) (w : World) : World :=
  {| now := now w; localtime := localtime w; stdout := stdout w;
     slept := slept w ++ [delay];
     yielded := yielded w; deleted := deleted w; failed := failed w;
     needs_github_assistance := needs_github_assistance w;
     semaphore := semaphore w |}.

Definition clock_advances (elapsed : timedelta) (w : World) : World :=
  {| now := now w + elapsed; localtime := localtime w; stdout := stdout w;
     slept := slept w;
     yielded := yielded w; deleted := deleted w; failed := failed w;
     needs_github_assistance := needs_github_assistance w;
     semaphore := semaphore w |}.

(** The coroutine runs up to its next [await] that gives up control.
    [semaphore.acquire()] returns at once when a permit is free. *)
Fixpoint advance (c : Coroutine unit) (w : World) : JobState * World :=
  match c with
  | Return a => (Ended (Returns a), w)
  | Sync m k =>
      match m w with
      | (Returns b, w') => advance (k b) w'
      | (Raises e, w') => (Ended (Raises e), w')
      | (Exits code, w') => (Ended (Exits code), w')
      | (Hangs why, w') => (Ended (Hangs why), w')
      end
  | AwaitAcquire k =>
      if 0 <? semaphore w
      then advance k (set_semaphore (semaphore w - 1) w)
      else (Acquiring k, w)
  | AwaitDelete http_client url k => (Requesting http_client url k, w)
  | AwaitSleep delay k =>
      (Sleeping (now w + Z.max 0 delay) k, sleep_starts delay w)
  end.

(** What a job goes on with when the loop resumes it at clock reading
    [clock]; [None] when it cannot be resumed. *)
Definition resumption (clock : Z) (state : JobState)
    : option (Coroutine unit) :=
  match state with
  | Created c => Some c
  | Acquiring k => Some (AwaitAcquire k)
  | Requesting http_client url k =>
      Some (k (AsyncClient.delete http_client url))
  | Sleeping until k => if until <=? clock then Some k else None
  | Ended _ => None
  end.

Definition is_requesting (job : Job.t) : bool :=
  match Job.state job with Requesting _ _ _ => true | _ => false end.

(** The number of delete requests sent and not yet answered. *)
Definition requests_in_flight (run : Run) : Z :=
  Z.of_nat (List.length (List.filter is_requesting (jobs run))).

(** The permits the jobs of the run have taken and not given back. *)
Definition permits_held (jobs : list Job.t) : Z :=
  fold_right (fun job total => Job.permits job + total) 0 jobs.

(** [main] before the first deletion is submitted. *)
Definition run_from (w : World) : Run :=
  {| world := w; jobs := []; exit_code := None |}.

Section Scheduler.

Variable int_of_str : string -> option Z.
Variable http_client : AsyncClient.t.

(** One step of the run; [None] when the event cannot happen in this state.
    Once [exit] has been called the process is gone and nothing happens.
    A resumed job is charged with the permits its code took from the
    semaphore during the step, and credited with those it gave back. *)
Definition step (run : Run) (event : Event) : option Run :=
  match exit_code run with
  | Some _ => None
  | None =>
      match event with
      | Submit url image_name version_id =>
          Some {| world := world run;
                  jobs := jobs run ++
                    [{| Job.state :=
                          Created
                            (Async._delete_package_versions int_of_str url
                               http_client image_name version_id);
                        Job.permits := 0 |}];
                  exit_code := None |}
      | Resume i =>
          match jobs run !! i with
          | Some job =>
              match resumption (now (world run)) (Job.state job) with
              | Some c =>
                  let (state, w) := advance c (world run) in
                  Some {| world := w;
                          jobs :=
                            <[i := {| Job.state := state;
                                      Job.permits :=
                                        Job.permits job
                                        + semaphore (world run)
                                        - semaphore w |}]>
                              (jobs run);
                          exit_code := match state with
                                       | Ended (Exits code) => Some code
                                       | _ => None
                                       end |}
              | None => None
              end
          | None => None
          end
      | Tick elapsed =>
          if 0 <=? elapsed
          then Some {| world := clock_advances elapsed (world run);
                       jobs := jobs run;
                       exit_code := None |}
          else None
      end
  end.

Fixpoint run_events (run : Run) (events : list Event) : option Run :=
  match events with
  | [] => Some run
  | event :: rest =>
      match step run event with
      | Some run' => run_events run' rest
      | None => None
      end
  end.

End Scheduler.

(** ** The claims in the spec's words *)

(** A version matches a pattern set when any tag matches any pattern. *)
Definition matches_any_pattern (fnmatch : string -> string -> bool)
    (image_tags patterns : list string) : bool :=
  existsb (fun pattern => existsb (fun tag => fnmatch tag pattern) image_tags)
          patterns.

(** The tag policy as the spec words it: whether an in-window version with
    these tags is selected. *)
Definition tag_policy_selects (fnmatch : string -> string -> bool)
    (inputs : Inputs.t) (image_tags : list string) : bool :=
  if Inputs.untagged_only inputs && negb (bool_decide (image_tags = []))
  then false
  else if bool_decide (image_tags = [])
          && negb (Inputs.filter_include_untagged inputs)
  then false
  else if matches_any_pattern fnmatch image_tags (Inputs.skip_tags inputs)
  then false
  else bool_decide (Inputs.filter_tags inputs = [])
       || matches_any_pattern fnmatch image_tags (Inputs.filter_tags inputs).

(** The items a page carries, when its body decodes to something iterable. *)
Definition page_items (response : Response.t) : option (list JSON) :=
  Response.json response ≫= json_items.

Definition items_of_pages (pages : list Response.t) : list JSON :=
  concat (map (fun page => default [] (page_items page)) pages).

(** How the chain of [next] relations from a URL ends. *)
Inductive ChainEnd :=
| NoNextRelation
| Unsuccessful (response : Response.t).

(** [next_chain client url pages ending]: requesting [url] and then the
    [next] relation of each [link] header in turn gives the successful
    responses [pages], and then either a page whose relations have no
    [next] (the last of [pages]) or an unsuccessful response. *)
Inductive next_chain (http_client : AsyncClient.t)
    : string -> list Response.t -> ChainEnd -> Prop :=
| chain_last url response link :
    AsyncClient.get http_client url = HttpResponse response ->
    is_success response = true ->
    Response.headers response !! "link" = Some link ->
    rels_of_link link !! "next" = None ->
    next_chain http_client url [response] NoNextRelation
| chain_unsuccessful url response :
    AsyncClient.get http_client url = HttpResponse response ->
    is_success response = false ->
    next_chain http_client url [] (Unsuccessful response)
| chain_next url response link next_url pages ending :
    AsyncClient.get http_client url = HttpResponse response ->
    is_success response = true ->
    Response.headers response !! "link" = Some link ->
    rels_of_link link !! "next" = Some next_url ->
    next_chain http_client next_url pages ending ->
    next_chain http_client url (response :: pages) ending.

(** What the rate limiter makes of a response when the clock reads
    [clock]: [Some pause] when it lets the response through, after a sleep
    of [pause] ([0] when it does not sleep), and [None] when it stops the
    listing.  It lets a response through when [x-ratelimit-remaining] is an
    integer and, if that is 0, [x-ratelimit-reset] is a timestamp that
    [datetime.fromtimestamp] accepts and whose local reading is at most
    [MAX_SLEEP] seconds after the local reading of the clock. *)
Definition rate_limit_pause (int_of_str : string -> option Z)
    (localtime : Z -> option Z) (clock : Z) (response : Response.t)
    : option timedelta :=
  remaining ← Response.headers response !! "x-ratelimit-remaining"
                ≫= int_of_str;
  if remaining =? 0 then
    reset ← Response.headers response !! "x-ratelimit-reset" ≫= int_of_str;
    match datetime_fromtimestamp localtime reset,
          datetime_at localtime clock with
    | inr ratelimit_reset, inr current =>
        if ratelimit_reset - current <=? timedelta_seconds MAX_SLEEP
        then Some (Z.max 0 (ratelimit_reset - current))
        else None
    | _, _ => None
    end
  else Some 0.

(** The rate limiter lets every page through, each at the time the listing
    gets to it: the clock has moved by the pauses of the pages before. *)
Fixpoint let_through (int_of_str : string -> option Z)
    (localtime : Z -> option Z) (clock : Z) (pages : list Response.t)
    : bool :=
  match pages with
  | [] => true
  | page :: rest =>
      match rate_limit_pause int_of_str localtime clock page with
      | Some pause => let_through int_of_str localtime (clock + pause) rest
      | None => false
      end
  end.

(** How the generator ends on a chain. *)
Definition chain_outcome (ending : ChainEnd) : Outcome unit :=
  match ending with
  | NoNextRelation => Returns tt
  | Unsuccessful response =>
      Raises (HTTPStatusError (Response.status_code response))
  end.

(** ** Inputs of the examples *)

(** An instance of [fnmatch] for the examples: the shell wildcards [*] and
    [?] and literal characters (bracket classes are left out). *)
Fixpoint wildcard (pattern : list ascii) : list ascii -> bool :=
  match pattern with
  | [] => fun name => match name with [] => true | _ :: _ => false end
  | p :: pattern' =>
      if Ascii.eqb p "*"%char then
        fix star (name : list ascii) : bool :=
          wildcard pattern' name
          || match name with [] => false | _ :: name' => star name' end
      else
        fun name =>
          match name with
          | [] => false
          | c :: name' =>
              (Ascii.eqb p "?"%char || Ascii.eqb p c) && wildcard pattern' name'
          end
  end.

Definition wildcard_match (name pattern : string) : bool :=
  wildcard (list_ascii_of_string pattern) (list_ascii_of_string name).

(** An instance of [int] for the examples: an optional sign and decimal
    digits, the form the rate-limit headers take. *)
Fixpoint digits_value (acc : Z) (s : list ascii) : option Z :=
  match s with
  | [] => Some acc
  | c :: rest =>
      let n := char_code c in
      if (48 <=? n) && (n <=? 57)
      then digits_value (acc * 10 + (n - 48)) rest
      else None
  end.

Definition int_decimal (s : string) : option Z :=
  match list_ascii_of_string s with
  | [] => None
  | c :: rest =>
      if Ascii.eqb c "-"%char then
        match rest with [] => None | _ => Z.opp <$> digits_value 0 rest end
      else if Ascii.eqb c "+"%char then
        match rest with [] => None | _ => digits_value 0 rest end
      else digits_value 0 (c :: rest)
  end.

Definition sample_version (id : Z) (timestamp : option datetime)
    (tags : list string) : PackageVersionResponse.t :=
  {| PackageVersionResponse.id := id;
     PackageVersionResponse.name := "sha256:" +:+ str id;
     PackageVersionResponse.metadata :=
       {| MetadataModel.container := {| ContainerModel.tags := tags |} |};
     PackageVersionResponse.created_at := timestamp;
     PackageVersionResponse.updated_at := timestamp |}.

(** A personal account with the cut-off at instant [1000], deciding on
    [updated_at]. *)
Definition sample_inputs (keep_at_least : Z) (untagged_only : bool)
    (filter_tags skip_tags : list string) (filter_include_untagged : bool)
    : Inputs.t :=
  {| Inputs.image_names := ["app-*"];
     Inputs.cut_off := 1000;
     Inputs.timestamp_to_use := UPDATED_AT;
     Inputs.account_type := PERSONAL;
     Inputs.org_name := None;
     Inputs.untagged_only := untagged_only;
     Inputs.skip_tags := skip_tags;
     Inputs.keep_at_least := keep_at_least;
     Inputs.filter_tags := filter_tags;
     Inputs.filter_include_untagged := filter_include_untagged |}.

(** [keep_at_least = 1], no tag filter, tagged versions allowed. *)
Definition keep_one : Inputs.t := sample_inputs 1 false [] [] true.

(** Three tagged versions of [app-a], all older than the cut-off. *)
Definition three_old_versions : list PackageVersionResponse.t :=
  [sample_version 301 (Some 900) ["v3"];
   sample_version 302 (Some 800) ["v2"];
   sample_version 303 (Some 700) ["v1"]].

Definition personal_task (image_name : string) (version_id : Z) : Task.t :=
  {| Task.account_type := PERSONAL; Task.org_name := None;
     Task.image_name := image_name; Task.version_id := version_id |}.

Definition quoted (s : string) : string :=
  String double_quote (s +:+ String double_quote EmptyString).

(** [<url>; rel="name"] *)
Definition link_value (url rel : string) : string :=
  "<" +:+ url +:+ ">; rel=" +:+ quoted rel.

Definition sample_response (status_code : Z) (headers : list (string * string))
    (json : option JSON) : Response.t :=
  {| Response.status_code := status_code;
     Response.headers := list_to_map headers;
     Response.json := json |}.

(** A client that answers the listed URLs and fails to connect elsewhere. *)
Definition sample_client (answers : list (string * HttpResult))
    : AsyncClient.t :=
  let answer url :=
    match List.find (fun a => String.eqb a.1 url) answers with
    | Some a => a.2
    | None => HttpRaises (TransportError "connection refused")
    end in
  {| AsyncClient.get := answer; AsyncClient.delete := answer |}.

Definition packages_url : string := "https://api.github.com/user/packages".
Definition packages_url_2 : string :=
  "https://api.github.com/user/packages?page=2".

(** A listing that fits one page: the [link] header names no [next], no
    request remains and the reset is 700 seconds away. *)
Definition exhausted_last_page : Response.t :=
  sample_response 200
    [("link", link_value packages_url "first");
     ("x-ratelimit-remaining", "0");
     ("x-ratelimit-reset", "1700000700")]
    (Some (JArray [JNumber 1; JNumber 2])).

Definition exhausted_client : AsyncClient.t :=
  sample_client [(packages_url, HttpResponse exhausted_last_page)].

(** A listing of two pages, the second one empty. *)
Definition first_page : Response.t :=
  sample_response 200
    [("link", link_value packages_url_2 "next");
     ("x-ratelimit-remaining", "4999");
     ("x-ratelimit-reset", "1700003600")]
    (Some (JArray [JNumber 1; JNumber 2])).

Definition empty_second_page : Response.t :=
  sample_response 200
    [("link", link_value packages_url "prev");
     ("x-ratelimit-remaining", "0");
     ("x-ratelimit-reset", "1700000030")]
    (Some (JArray [])).

Definition two_page_client : AsyncClient.t :=
  sample_client [(packages_url, HttpResponse first_page);
                 (packages_url_2, HttpResponse empty_second_page)].

(** A successful page that carries no [link] header. *)
Definition page_without_link : Response.t :=
  sample_response 200
    [("x-ratelimit-remaining", "4999"); ("x-ratelimit-reset", "1700003600")]
    (Some (JArray [JNumber 1])).

(** A listing of two pages whose second page carries no [link] header. *)
Definition second_page_without_link_client : AsyncClient.t :=
  sample_client [(packages_url, HttpResponse first_page);
                 (packages_url_2, HttpResponse page_without_link)].

(** The clock reads 1700000000 seconds when the run starts. *)
Definition sample_start : Z := 1700000000 * 1000000.





(** A 400 answer whose body is not JSON, as a proxy in front of the API
    sends it. *)
Definition bad_request_not_json : Response.t :=
  sample_response 400 [("x-ratelimit-remaining", "4999")] None.

Definition version_url : string :=
  "https://api.github.com/user/packages/container/app-a/versions/301".

(** A client whose delete call times out. *)
Definition timing_out_client : AsyncClient.t :=
  sample_client [(version_url, HttpRaises (TimeoutException "ReadTimeout"))].

(** A client whose delete call succeeds. *)
Definition deleting_client : AsyncClient.t :=
  sample_client
    [(version_url,
      HttpResponse (sample_response 204 [("x-ratelimit-remaining", "4999")] None))].

(** 120 deletions are submitted and started: the first 50 send their
    request and the others wait for a permit.  The answer to the first
    request arrives, that job sleeps its second and ends, and the next job
    in line gets the permit. *)
Definition busy_events : list Event :=
  map (fun i => Submit version_url "app-a" (Z.of_nat i)) (seq 0 120)
  ++ map Resume (seq 0 120)
  ++ [Resume 0%nat; Tick (timedelta_seconds 1); Resume 0%nat; Resume 50%nat].

(** ** Predicates of the statements *)

(** Code that runs inside the [async with] block: it leaves the semaphore
    as it is and never waits. *)
Definition inside_block {A} (m : M A) : Prop :=
  forall w, semaphore (snd (m w)) = semaphore w
            /\ forall why, fst (m w) <> Hangs why.

(** A coroutine that runs inside the [async with] block: its code leaves
    the semaphore as it is, and it never awaits the semaphore. *)
Fixpoint inside_block_coroutine {A} (c : Coroutine A) : Prop :=
  match c with
  | Return _ => True
  | Sync m k => inside_block m /\ forall b, inside_block_coroutine (k b)
  | AwaitAcquire _ => False
  | AwaitDelete _ _ k => forall answer, inside_block_coroutine (k answer)
  | AwaitSleep _ k => inside_block_coroutine k
  end.

(** A coroutine that has [permits] permits in hand deals with them as the
    bounded deletion should: it asks for a permit only when it has none, it
    sends a request only with exactly one in hand, its code never takes a
    permit behind the semaphore's back, and when it ends, by returning, by
    an exception or by [exit], it has given back what it took. *)
Fixpoint holds_permits {A} (permits : Z) (c : Coroutine A) : Prop :=
  match c with
  | Return _ => permits = 0
  | Sync m k =>
      forall w,
        match m w with
        | (Returns b, w') =>
            semaphore w <= semaphore w'
            /\ holds_permits (permits + semaphore w - semaphore w') (k b)
        | (Hangs _, _) => False
        | (_, w') =>
            semaphore w <= semaphore w'
            /\ permits + semaphore w - semaphore w' = 0
        end
  | AwaitAcquire k => permits = 0 /\ holds_permits 1 k
  | AwaitDelete _ _ k => permits = 1 /\ forall answer, holds_permits 1 (k answer)
  | AwaitSleep _ k => 0 <= permits <= 1 /\ holds_permits permits k
  end.

(** A job's count of permits fits its state. *)
Definition job_in_order (job : Job.t) : Prop :=
  match Job.state job with
  | Created c => holds_permits (Job.permits job) c /\ Job.permits job = 0
  | Acquiring k => Job.permits job = 0 /\ holds_permits 1 k
  | Requesting _ _ k =>
      Job.permits job = 1 /\ forall answer, holds_permits 1 (k answer)
  | Sleeping _ k =>
      0 <= Job.permits job <= 1 /\ holds_permits (Job.permits job) k
  | Ended _ => Job.permits job = 0
  end.

(** The free permits and the permits in the hands of the jobs add up to
    the capacity, no count is negative, and every job is in order. *)
Definition permits_balance (run : Run) : Prop :=
  semaphore (world run) + permits_held (jobs run) = main_semaphore
  /\ 0 <= semaphore (world run)
  /\ Forall job_in_order (jobs run).

(** What the statement of the bound says of a job: one whose request is in
    flight has exactly one permit in hand, one that has ended has none, and
    no job ever has more than one. *)
Definition permit_in_hand (job : Job.t) : Prop :=
  match Job.state job with
  | Requesting _ _ _ => Job.permits job = 1
  | Ended _ => Job.permits job = 0
  | _ => 0 <= Job.permits job <= 1
  end.

(** ** Statements about the rest of the code *)

(** What the loop does with a version when the keep-at-least test does not
    fire: the timestamp is present and not after the cut-off, and the tag
    policy selects the version. *)
Definition selected_without_keep (fnmatch : string -> string -> bool)
    (inputs : Inputs.t) (version : PackageVersionResponse.t) : bool :=
  match getattr_timestamp version (Inputs.timestamp_to_use inputs) with
  | Some t =>
      (t <=? Inputs.cut_off inputs)
      && tag_policy_selects fnmatch inputs
           (ContainerModel.tags
              (MetadataModel.container
                 (PackageVersionResponse.metadata version)))
  | None => false
  end.

(** Five versions of [app-a]: one newer than the cut-off, one without a
    timestamp, three old ones. *)
Definition mixed_versions : list PackageVersionResponse.t :=
  [sample_version 401 (Some 2000) ["latest"];
   sample_version 402 None ["v4"];
   sample_version 403 (Some 900) ["v3"];
   sample_version 404 (Some 800) ["v2"];
   sample_version 405 (Some 700) ["v1"]].

(** [w'] is a world that listing code can reach from [w]: the three lists
    and the semaphore are as they were, the clock has not gone back, and
    the items yielded so far are still there, in front. *)
Definition listing_only (w w' : World) : Prop :=
  deleted w' = deleted w
  /\ failed w' = failed w
  /\ needs_github_assistance w' = needs_github_assistance w
  /\ semaphore w' = semaphore w
  /\ now w <= now w'
  /\ exists more, yielded w' = yielded w ++ more.

(** A coroutine that takes every world to one that listing code can
    reach. *)
Definition listing_step {A} (m : M A) : Prop :=
  forall w, listing_only w (snd (m w)).

(** [f'{image_name}:{version_id}'] *)
Definition image_name_with_tag (image_name : string) (version_id : Z) : string :=
  image_name +:+ ":" +:+ str version_id.

(** A page whose [next] relation is its own URL. *)
Definition looping_page : Response.t :=
  sample_response 200
    [("link", link_value packages_url "next");
     ("x-ratelimit-remaining", "4999")]
    (Some (JArray [JNumber 1])).

Definition looping_client : AsyncClient.t :=
  sample_client [(packages_url, HttpResponse looping_page)].

(** A successful deletion whose answer carries no rate-limit header. *)
Definition deleted_without_headers : Response.t :=
  sample_response 204 [] None.

Definition headerless_client : AsyncClient.t :=
  sample_client [(version_url, HttpResponse deleted_without_headers)].

(** A 403 whose body is not JSON. *)
Definition forbidden_not_json : Response.t :=
  sample_response 403 [("x-ratelimit-remaining", "4999")] None.

(** ** Python strings ([str.strip], [str.split], [urllib.parse.quote_from_bytes])

    A [str] is held as the bytes of its UTF-8 encoding, so that
    [s.encode('utf-8')] is the string itself. *)

Definition byte (n : nat) : ascii := ascii_of_nat n.

(** The UTF-8 encodings of the characters that [str.isspace] accepts:
    U+0009 to U+000D, U+001C to U+0020, U+0085, U+00A0, U+1680, U+2000 to
    U+200A, U+2028, U+2029, U+202F, U+205F and U+3000. *)
Definition whitespace_encodings : list (list ascii) :=
  map (map byte)
    [[9]; [10]; [11]; [12]; [13]; [28]; [29]; [30]; [31]; [32];
     [194; 133]; [194; 160]; [225; 154; 128];
     [226; 128; 128]; [226; 128; 129]; [226; 128; 130]; [226; 128; 131];
     [226; 128; 132]; [226; 128; 133]; [226; 128; 134]; [226; 128; 135];
     [226; 128; 136]; [226; 128; 137]; [226; 128; 138];
     [226; 128; 168]; [226; 128; 169]; [226; 128; 175];
     [226; 129; 159]; [227; 128; 128]]%nat.

(** What is left of [s] after the first of [patterns] that starts it. *)
Fixpoint first_stripped (patterns : list (list ascii)) (s : list ascii)
    : option (list ascii) :=
  match patterns with
  | [] => None
  | pattern :: rest =>
      match strip_prefix pattern s with
      | Some s' => Some s'
      | None => first_stripped rest s
      end
  end.

(** Dropping leading patterns for as long as there is one, at most [fuel]
    times. *)
Fixpoint lstrip_with (patterns : list (list ascii)) (fuel : nat)
    (s : list ascii) : list ascii :=
  match fuel with
  | O => s
  | S fuel' =>
      match first_stripped patterns s with
      | Some s' => lstrip_with patterns fuel' s'
      | None => s
      end
  end.

(** [s.lstrip()] *)
Definition lstrip (s : list ascii) : list ascii :=
  lstrip_with whitespace_encodings (List.length s) s.

(** [s.rstrip()]: the same from the other end, on the reversed bytes. *)
Definition rstrip (s : list ascii) : list ascii :=
  rev (lstrip_with (map (@rev ascii) whitespace_encodings) (List.length s)
         (rev s)).

(** [s.strip()] *)
Definition strip (s : string) : string :=
  string_of_list_ascii (rstrip (lstrip (list_ascii_of_string s))).

(** [s.split(sep)] for a separator of one character *)
Fixpoint split_on (sep : ascii) (s : list ascii) : list (list ascii) :=
  match s with
  | [] => [[]]
  | c :: rest =>
      if Ascii.eqb c sep then [] :: split_on sep rest
      else
        match split_on sep rest with
        | piece :: pieces => (c :: piece) :: pieces
        | [] => [[c]]
        end
  end.

(** [Inputs.parse_comma_separate_string_as_list]:
    [[i.strip() for i in v.split(',')] if v else []] *)
Definition parse_comma_separate_string_as_list (v : string) : list string :=
  match v with
  | EmptyString => []
  | _ =>
      map (fun piece => strip (string_of_list_ascii piece))
          (split_on ","%char (list_ascii_of_string v))
  end.

(** The bytes that [quote_from_bytes] never escapes: letters, digits and
    [_.-~]. *)
Definition is_always_safe (c : ascii) : bool :=
  let n := char_code c in
  ((48 <=? n) && (n <=? 57)) || ((65 <=? n) && (n <=? 90))
  || ((97 <=? n) && (n <=? 122))
  || (n =? 95) || (n =? 46) || (n =? 45) || (n =? 126).

(** An upper-case hexadecimal digit. *)
Definition hex_digit (n : nat) : ascii :=
  if (n <? 10)%nat then ascii_of_nat (48 + n) else ascii_of_nat (55 + n).

(** One byte as [quote_from_bytes(..., safe='')] writes it. *)
Definition quote_byte (c : ascii) : list ascii :=
  if is_always_safe c then [c]
  else
    let n := nat_of_ascii c in
    ["%"%char; hex_digit (n / 16); hex_digit (n mod 16)].

(** [quote_from_bytes(bs, safe='')] *)
Definition quote_from_bytes (bs : list ascii) : list ascii :=
  flat_map quote_byte bs.

(** [encode_image_name]:
    [quote_from_bytes(name.strip().encode('utf-8'), safe='')] *)
Definition encode_image_name (name : string) : string :=
  string_of_list_ascii
    (quote_from_bytes (list_ascii_of_string (strip name))).

(** The value of an upper-case hexadecimal digit. *)
Definition hex_value (c : ascii) : nat :=
  let n := nat_of_ascii c in
  if (n <? 58)%nat then (n - 48)%nat else (n - 55)%nat.

(** Reading back what [quote_from_bytes] writes, as
    [urllib.parse.unquote_to_bytes] does; the proofs use it as the inverse. *)
Fixpoint unquote_to_bytes (s : list ascii) : list ascii :=
  match s with
  | [] => []
  | c :: rest =>
      if Ascii.eqb c "%"%char then
        match rest with
        | h1 :: h2 :: rest' =>
            ascii_of_nat (16 * hex_value h1 + hex_value h2)
            :: unquote_to_bytes rest'
        | _ => c :: unquote_to_bytes rest
        end
      else c :: unquote_to_bytes rest
  end.

(** A [link] header as the API writes it: the links [<url>; rel="name"]
    separated by a comma and a space. *)
Definition link_header (links : list (string * string)) : string :=
  String.concat ", " (map (fun link => link_value link.1 link.2) links).

(** A link the pattern is written for: no angle bracket in the URL, and a
    relation of one or more word characters. *)
Definition well_formed_link (link : string * string) : Prop :=
  Forall (fun c => is_not_angle c = true) (list_ascii_of_string link.1)
  /\ Forall (fun c => is_word_char c = true) (list_ascii_of_string link.2)
  /\ link.2 <> EmptyString.

(** ** [main/api.py]: the URLs of a deletion and the dispatch on the
    account type *)

Definition BASE_URL : string := "https://api.github.com".

(** The URL of [delete_package_versions] *)
Definition delete_package_versions_url (image_name : string) (version_id : Z)
    : string :=
  BASE_URL +:+ "/user/packages/container/" +:+ encode_image_name image_name
  +:+ "/versions/" +:+ str version_id.

(** The URL of [delete_org_package_versions]; the organisation name goes in
    as it is. *)
Definition delete_org_package_versions_url (org_name image_name : string)
    (version_id : Z) : string :=
  BASE_URL +:+ "/orgs/" +:+ org_name +:+ "/packages/container/"
  +:+ encode_image_name image_name +:+ "/versions/" +:+ str version_id.

Definition delete_package_versions (int_of_str : string -> option Z)
    (image_name : string) (version_id : Z) (http_client : AsyncClient.t)
    : M unit :=
  _delete_package_versions int_of_str
    (delete_package_versions_url image_name version_id)
    http_client image_name version_id.

Definition delete_org_package_versions (int_of_str : string -> option Z)
    (org_name image_name : string) (version_id : Z)
    (http_client : AsyncClient.t) : M unit :=
  _delete_package_versions int_of_str
    (delete_org_package_versions_url org_name image_name version_id)
    http_client image_name version_id.

Module GithubAPI.
(** [GithubAPI.delete_package]; [None] stands for the [AssertionError] of
    [assert isinstance(org_name, str)], raised before anything else
    happens. *)
Definition delete_package (int_of_str : string -> option Z)
    (account_type : AccountType) (org_name : option string)
    (image_name : string) (version_id : Z) (http_client : AsyncClient.t)
    : option (M unit) :=
  match account_type with
  | PERSONAL =>
      Some (delete_package_versions int_of_str image_name version_id
              http_client)
  | ORG =>
      match org_name with
      | Some org =>
          Some (delete_org_package_versions int_of_str org image_name
                  version_id http_client)
      | None => None
      end
  end.
End GithubAPI.

(** [Inputs.validate_org_name]; [values_account_type] is
    [values['account_type']], missing when the account type did not
    validate. *)
Definition validate_org_name (values_account_type : option AccountType)
    (v : string) : Outcome (option string) :=
  match values_account_type with
  | None => Raises (KeyError "account_type")
  | Some account_type =>
      match account_type, v with
      | ORG, EmptyString => Raises ValueError
      | _, EmptyString => Returns None
      | _, _ => Returns (Some v)
      end
  end.

(** ** [main/main.py]: the package tasks of [main] *)

Module PackageResponse.
Record t := {
  id : Z;
  name : string;
  created_at : datetime;
  updated_at : option datetime
}.
End PackageResponse.

(** The two loops of [main] over the packages of the account and the
    configured image names: the [image_name] argument of each
    [get_and_delete_old_package_versions] task, in the order the tasks are
    created. *)
Definition main_tasks (fnmatch : string -> string -> bool)
    (inputs : Inputs.t) (packages : list PackageResponse.t) : list string :=
  fold_left
    (fun tasks package =>
       fold_left
         (fun tasks image_name =>
            if fnmatch (PackageResponse.name package) image_name
            then tasks ++ [image_name]
            else tasks)
         (Inputs.image_names inputs) tasks)
    packages [].

Definition sample_package (id : Z) (name : string) : PackageResponse.t :=
  {| PackageResponse.id := id; PackageResponse.name := name;
     PackageResponse.created_at := 500; PackageResponse.updated_at := None |}.

(** * Properties *)

(** ** Retention filter *)

Section RetentionFilterFacts.

Variable fnmatch : string -> string -> bool.

Lemma truthy_nil {A} (l : list A) : truthy l = negb (bool_decide (l = [])).
Proof. destruct l; reflexivity. Qed.

Lemma filter_tags_loop_any (image_tags filter_tags : list string) (d : bool) :
  filter_tags_loop fnmatch image_tags filter_tags d
  = matches_any_pattern fnmatch image_tags filter_tags || d.
Proof.
  induction filter_tags as [|pattern rest IH]; simpl; [reflexivity|].
  unfold any_tag_matches.
  destruct (existsb _ image_tags); simpl; [reflexivity | exact IH].
Qed.

Lemma skip_tags_loop_any (image_tags skip_tags : list string) (d : bool) :
  skip_tags_loop fnmatch image_tags skip_tags d
  = negb (matches_any_pattern fnmatch image_tags skip_tags) && d.
Proof.
  revert d.
  induction skip_tags as [|pattern rest IH]; intros d; simpl; [reflexivity|].
  rewrite IH. unfold any_tag_matches.
  destruct (existsb _ image_tags); simpl; [apply andb_false_r | reflexivity].
Qed.

(** An iteration on a version that is newer than the cut-off is a
    [continue]: the state is the one before. *)
Lemma loop_body_too_recent image_name inputs st version t :
  getattr_timestamp version (Inputs.timestamp_to_use inputs) = Some t ->
  Inputs.cut_off inputs < t ->
  loop_body fnmatch image_name inputs st version = st.
Proof.
  intros Hts Hlt. unfold loop_body. rewrite Hts.
  destruct (_ && _); [reflexivity|].
  apply Z.ltb_lt in Hlt. rewrite Hlt. reflexivity.
Qed.

Lemma loop_from_app image_name inputs st pre post :
  loop_from fnmatch image_name inputs st (pre ++ post)
  = loop_from fnmatch image_name inputs
      (loop_from fnmatch image_name inputs st pre) post.
Proof. unfold loop_from. apply fold_left_app. Qed.

(** The index never passes [keep_at_least], and no more tasks exist than
    the index counts. *)
Lemma loop_body_index_bound image_name inputs st version :
  0 < Inputs.keep_at_least inputs ->
  index st <= Inputs.keep_at_least inputs ->
  Z.of_nat (List.length (tasks st)) <= index st ->
  let st' := loop_body fnmatch image_name inputs st version in
  index st' <= Inputs.keep_at_least inputs
  /\ Z.of_nat (List.length (tasks st')) <= index st'.
Proof.
  intros Hpos Hle Hlen. unfold loop_body. cbv zeta.
  destruct (Z.ltb_spec 0 (Inputs.keep_at_least inputs)) as [_|]; [|lia].
  rewrite andb_true_l.
  destruct (Z.eqb_spec (Inputs.keep_at_least inputs) (index st)) as [|Hne];
    [auto|].
  destruct (getattr_timestamp version (Inputs.timestamp_to_use inputs));
    [|cbn [index tasks]; auto].
  destruct (Inputs.cut_off inputs <? d); [auto|].
  destruct (Inputs.untagged_only inputs && _); [auto|].
  destruct (negb _ && _); [auto|].
  cbn [index tasks]. split; [lia|].
  destruct (skip_tags_loop _ _ _ _); [rewrite length_app; simpl|]; lia.
Qed.

(** With a positive [keep_at_least] the loop creates at most
    [keep_at_least] tasks, whatever the listing holds. *)
Lemma at_most_keep_at_least_tasks image_name inputs versions :
  0 < Inputs.keep_at_least inputs ->
  Z.of_nat (List.length
              (select_package_versions_to_delete fnmatch image_name inputs versions))
  <= Inputs.keep_at_least inputs.
Proof.
  intros Hpos.
  unfold select_package_versions_to_delete, run_loop, loop_from.
  assert (H : forall st,
    index st <= Inputs.keep_at_least inputs ->
    Z.of_nat (List.length (tasks st)) <= index st ->
    let st' := fold_left (loop_body fnmatch image_name inputs) versions st in
    index st' <= Inputs.keep_at_least inputs
    /\ Z.of_nat (List.length (tasks st')) <= index st').
  { induction versions as [|v rest IH]; intros st H1 H2; simpl; [auto|].
    destruct (loop_body_index_bound image_name inputs st v Hpos H1 H2).
    apply IH; assumption. }
  destruct (H loop_start); simpl in *; lia.
Qed.

(** C1, at an input where the code leaves the claim: with
    [keep_at_least = 1] and a listing of one tagged version older than the
    cut-off, the loop creates the task that deletes this version, the first
    classifiable one in traversal order.  The test of line 41 skips versions
    once [index] equals [keep_at_least]; until then every version goes
    through the timestamp and tag checks. *)
Theorem first_version_is_deleted_despite_keep_at_least :
  select_package_versions_to_delete fnmatch "app-a" keep_one
    [sample_version 301 (Some 900) ["v3"]]
  = [personal_task "app-a" 301].
Proof. reflexivity. Qed.

(** C2, at the input of the claim: three tagged versions older than the
    cut-off, no tag filter and [keep_at_least = 1].  The loop creates one
    task, for the first version of the listing, and skips the two others. *)
Theorem three_old_versions_keep_one_schedules_one :
  select_package_versions_to_delete fnmatch "app-a" keep_one three_old_versions
  = [personal_task "app-a" 301].
Proof. reflexivity. Qed.

(** C3: a version whose configured timestamp is present and after the
    cut-off is never selected.  Wherever it stands in the listing, the
    iteration on it leaves the loop state (index, tasks, printed lines) as it
    was, so the tasks of the whole listing are those of the listing without
    it. *)
Theorem too_recent_never_selected image_name inputs pre version post t :
  getattr_timestamp version (Inputs.timestamp_to_use inputs) = Some t ->
  Inputs.cut_off inputs < t ->
  run_loop fnmatch image_name inputs (pre ++ [version])
  = run_loop fnmatch image_name inputs pre
  /\ select_package_versions_to_delete fnmatch image_name inputs
       (pre ++ version :: post)
     = select_package_versions_to_delete fnmatch image_name inputs
         (pre ++ post).
Proof.
  intros Hts Hlt.
  assert (Hstep : forall st,
    loop_from fnmatch image_name inputs st [version] = st).
  { intros st. simpl. eapply loop_body_too_recent; eassumption. }
  split.
  - unfold run_loop. rewrite loop_from_app. apply Hstep.
  - unfold select_package_versions_to_delete, run_loop.
    rewrite !loop_from_app.
    change (version :: post) with ([version] ++ post).
    rewrite loop_from_app, Hstep. reflexivity.
Qed.

(** The iteration on a version that reaches the tag policy. *)
Lemma loop_body_in_window image_name inputs st version t :
  ~ (0 < Inputs.keep_at_least inputs
     /\ Inputs.keep_at_least inputs = index st) ->
  getattr_timestamp version (Inputs.timestamp_to_use inputs) = Some t ->
  t <= Inputs.cut_off inputs ->
  tasks (loop_body fnmatch image_name inputs st version)
  = if tag_policy_selects fnmatch inputs
         (ContainerModel.tags
            (MetadataModel.container (PackageVersionResponse.metadata version)))
    then tasks st ++ [delete_task image_name inputs version]
    else tasks st.
Proof.
  intros Hgate Hts Hle. unfold loop_body, tag_policy_selects. cbv zeta.
  rewrite Hts.
  assert (Hg : (0 <? Inputs.keep_at_least inputs)
               && (Inputs.keep_at_least inputs =? index st) = false).
  { apply andb_false_iff.
    destruct (Z.ltb_spec 0 (Inputs.keep_at_least inputs)); [|auto].
    right. apply Z.eqb_neq. intros E. apply Hgate. split; assumption. }
  rewrite Hg.
  assert (Hc : (Inputs.cut_off inputs <? t) = false) by (apply Z.ltb_ge; lia).
  rewrite Hc.
  rewrite skip_tags_loop_any, filter_tags_loop_any, !truthy_nil.
  set (image_tags := ContainerModel.tags _).
  destruct (Inputs.untagged_only inputs && negb (bool_decide (image_tags = [])));
    [reflexivity|].
  rewrite negb_involutive.
  destruct (bool_decide (image_tags = [])
            && negb (Inputs.filter_include_untagged inputs)); [reflexivity|].
  cbn [tasks].
  destruct (matches_any_pattern fnmatch image_tags (Inputs.skip_tags inputs));
    simpl; [reflexivity|].
  rewrite negb_involutive, orb_comm. reflexivity.
Qed.

(** An iteration either leaves the tasks as they are or appends the task of
    its version, and it appends only when the iteration got as far as the
    tag policy. *)
Lemma loop_body_tasks image_name inputs st version :
  tasks (loop_body fnmatch image_name inputs st version) = tasks st
  \/ (exists t,
        ~ (0 < Inputs.keep_at_least inputs
           /\ Inputs.keep_at_least inputs = index st)
        /\ getattr_timestamp version (Inputs.timestamp_to_use inputs) = Some t
        /\ t <= Inputs.cut_off inputs).
Proof.
  unfold loop_body.
  destruct (Z.ltb_spec 0 (Inputs.keep_at_least inputs)) as [Hpos|Hpos];
    destruct (Z.eqb_spec (Inputs.keep_at_least inputs) (index st)) as [He|He];
    cbn [andb]; try (left; reflexivity);
    (destruct (getattr_timestamp version (Inputs.timestamp_to_use inputs))
       as [t|]; [|left; reflexivity];
     destruct (Z.ltb_spec (Inputs.cut_off inputs) t); [left; reflexivity|];
     right; exists t; repeat split; [|lia]; intros [H1 H2]; lia).
Qed.

(** The policy of the spec, case by case. *)
Lemma tag_policy_selects_cases inputs image_tags :
  (Inputs.untagged_only inputs = true -> image_tags <> [] ->
     tag_policy_selects fnmatch inputs image_tags = false)
  /\ (image_tags = [] -> Inputs.filter_include_untagged inputs = false ->
        tag_policy_selects fnmatch inputs image_tags = false)
  /\ (matches_any_pattern fnmatch image_tags (Inputs.skip_tags inputs) = true ->
        tag_policy_selects fnmatch inputs image_tags = false)
  /\ (~ (Inputs.untagged_only inputs = true /\ image_tags <> []) ->
      ~ (image_tags = [] /\ Inputs.filter_include_untagged inputs = false) ->
      matches_any_pattern fnmatch image_tags (Inputs.skip_tags inputs) = false ->
      (tag_policy_selects fnmatch inputs image_tags = true
       <-> Inputs.filter_tags inputs = []
           \/ matches_any_pattern fnmatch image_tags
                (Inputs.filter_tags inputs) = true)).
Proof.
  unfold tag_policy_selects.
  destruct (Inputs.untagged_only inputs),
    (Inputs.filter_include_untagged inputs),
    (matches_any_pattern fnmatch image_tags (Inputs.skip_tags inputs)),
    (matches_any_pattern fnmatch image_tags (Inputs.filter_tags inputs));
    repeat case_bool_decide; cbn; intuition congruence.
Qed.

(** C4: the tag policy.  An iteration never appends a task for a version
    that the policy in the spec's words, [tag_policy_selects], rejects:
    tags present under [untagged_only], no tags with
    [filter_include_untagged] off, or a tag matching a [skip_tags] pattern,
    whatever [filter_tags] matches.  For a version that reaches the policy
    (the keep-at-least test of line 41 does not fire, the timestamp is
    present and not after the cut-off), the iteration appends the deletion
    task exactly when the policy selects it, which outside the three cases
    above means that [filter_tags] is empty or a tag matches one of its
    patterns. *)
Theorem tag_policy_precedence image_name inputs st version :
  let image_tags :=
    ContainerModel.tags
      (MetadataModel.container (PackageVersionResponse.metadata version)) in
  (tag_policy_selects fnmatch inputs image_tags = false ->
   tasks (loop_body fnmatch image_name inputs st version) = tasks st)
  /\ (forall t,
        ~ (0 < Inputs.keep_at_least inputs
           /\ Inputs.keep_at_least inputs = index st) ->
        getattr_timestamp version (Inputs.timestamp_to_use inputs) = Some t ->
        t <= Inputs.cut_off inputs ->
        tasks (loop_body fnmatch image_name inputs st version)
        = if tag_policy_selects fnmatch inputs image_tags
          then tasks st ++ [delete_task image_name inputs version]
          else tasks st).
Proof.
  intros image_tags. split.
  - intros Hno.
    destruct (loop_body_tasks image_name inputs st version)
      as [Hsame|(t & Hgate & Hts & Hle)]; [exact Hsame|].
    rewrite (loop_body_in_window image_name inputs st version t Hgate Hts Hle).
    fold image_tags. rewrite Hno. reflexivity.
  - intros t Hgate Hts Hle.
    apply (loop_body_in_window image_name inputs st version t); assumption.
Qed.

(** With [keep_at_least = 1] and no tag filter, a listing of three tagged
    versions older than the cut-off gives one task, for the first of them. *)
Lemma keep_one_schedules_only_first image_name inputs v1 v2 v3 t1 :
  Inputs.keep_at_least inputs = 1 ->
  Inputs.untagged_only inputs = false ->
  Inputs.filter_tags inputs = [] ->
  Inputs.skip_tags inputs = [] ->
  getattr_timestamp v1 (Inputs.timestamp_to_use inputs) = Some t1 ->
  t1 <= Inputs.cut_off inputs ->
  ContainerModel.tags
    (MetadataModel.container (PackageVersionResponse.metadata v1)) <> [] ->
  select_package_versions_to_delete fnmatch image_name inputs [v1; v2; v3]
  = [delete_task image_name inputs v1].
Proof.
  intros Hk Hu Hf Hs Hts Hle Htags.
  unfold select_package_versions_to_delete, run_loop, loop_from.
  cbn [fold_left].
  assert (H1 : loop_body fnmatch image_name inputs loop_start v1
               = {| index := 1; tasks := [delete_task image_name inputs v1];
                    printed := [] |}).
  { unfold loop_body. rewrite Hk, Hts, Hu, Hf, Hs. cbn [loop_start index andb
      Z.ltb Z.eqb Z.compare].
    assert (Hc : (Inputs.cut_off inputs <? t1) = false)
      by (apply Z.ltb_ge; lia).
    rewrite Hc.
    destruct (ContainerModel.tags _) as [|tag rest]; [contradiction|].
    reflexivity. }
  rewrite H1.
  assert (Hskip : forall v,
    loop_body fnmatch image_name inputs
      {| index := 1; tasks := [delete_task image_name inputs v1];
         printed := [] |} v
    = {| index := 1; tasks := [delete_task image_name inputs v1];
         printed := [] |}).
  { intros v. unfold loop_body. rewrite Hk. reflexivity. }
  rewrite !Hskip. reflexivity.
Qed.

End RetentionFilterFacts.

Lemma too_recent_never_selected_witness :
  let inputs := sample_inputs 0 false [] [] true in
  let version := sample_version 7 (Some 1001) ["latest"] in
  run_loop wildcard_match "app-a" inputs (three_old_versions ++ [version])
  = run_loop wildcard_match "app-a" inputs three_old_versions
  /\ select_package_versions_to_delete wildcard_match "app-a" inputs
       (three_old_versions ++ version :: three_old_versions)
     = select_package_versions_to_delete wildcard_match "app-a" inputs
         (three_old_versions ++ three_old_versions).
Proof.
  intros inputs version.
  apply (too_recent_never_selected wildcard_match "app-a" inputs
           three_old_versions version three_old_versions 1001);
    [reflexivity | reflexivity].
Defined.

(** [skip_tags] wins over [filter_tags]: the version is tagged [v1.2] and
    [stable], [v1.*] is a filter pattern and [stable] a skip pattern; the
    second version is tagged [v1.3] only and is selected. *)
Lemma tag_policy_precedence_witness :
  let inputs := sample_inputs 2 false ["v1.*"] ["stable"] true in
  let protected := sample_version 8 (Some 900) ["v1.2"; "stable"] in
  let plain := sample_version 9 (Some 900) ["v1.3"] in
  tasks (loop_body wildcard_match "app-a" inputs loop_start protected) = []
  /\ tasks (loop_body wildcard_match "app-a" inputs loop_start plain)
     = [personal_task "app-a" 9].
Proof.
  intros inputs protected plain. split.
  - apply (proj1 (tag_policy_precedence wildcard_match "app-a" inputs
                    loop_start protected)).
    reflexivity.
  - apply (proj2 (tag_policy_precedence wildcard_match "app-a" inputs
                    loop_start plain) 900).
    + simpl. lia.
    + reflexivity.
    + simpl. lia.
Defined.

(** ** Coroutines run alone *)

(** Binding the same computation to continuations that agree. *)
Lemma bind_ext {A B} (m : M A) (f g : A -> M B) w :
  (forall a w', f a w' = g a w') -> (m ≫= f) w = (m ≫= g) w.
Proof.
  intros H. unfold mbind, M_bind.
  destruct (m w) as [[a|e|code|why] w']; [apply H | reflexivity ..].
Qed.

Lemma bind_mret {A} (m : M A) w : (m ≫= mret) w = m w.
Proof.
  unfold mbind, M_bind, mret, M_ret.
  destruct (m w) as [[a|e|code|why] w']; reflexivity.
Qed.

Lemma run_alone_bind {A B} (c : Coroutine A) (f : A -> Coroutine B) :
  forall w, run_alone (c ≫= f) w = (run_alone c ≫= fun a => run_alone (f a)) w.
Proof.
  unfold mbind at 1. unfold Coroutine_bind.
  induction c as [a|C m k IH|k IH|http_client url k IH|delay k IH];
    intros w; cbn [coroutine_bind run_alone].
  - reflexivity.
  - unfold mbind, M_bind. destruct (m w) as [[b|e|code|why] w'];
      [apply IH | reflexivity ..].
  - unfold mbind, M_bind. destruct (semaphore_acquire w) as [[b|e|code|why] w'];
      [apply IH | reflexivity ..].
  - apply IH.
  - unfold mbind, M_bind. destruct (asyncio_sleep delay w) as [[b|e|code|why] w'];
      [apply IH | reflexivity ..].
Qed.

Lemma run_alone_run {A} (m : M A) w : run_alone (run m) w = m w.
Proof. unfold run. cbn [run_alone]. apply bind_mret. Qed.

(** Binding code that does not give up control. *)
Lemma bind_run {A B} (m : M A) (f g : A -> M B) w :
  (forall a w', f a w' = g a w') ->
  (run_alone (run m) ≫= f) w = (m ≫= g) w.
Proof.
  intros H. unfold mbind at 1. unfold M_bind at 1. rewrite run_alone_run.
  unfold mbind, M_bind.
  destruct (m w) as [[a|e|code|why] w']; [apply H | reflexivity ..].
Qed.

Lemma run_alone_try_except {A} (block : Coroutine A) handler :
  forall w,
    run_alone (Async.try_except block handler) w
    = try_except (run_alone block) (fun e => run_alone <$> handler e) w.
Proof.
  induction block as [a|C m k IH|k IH|http_client url k IH|delay k IH];
    intros w; cbn [Async.try_except run_alone].
  - reflexivity.
  - unfold try_except, mbind, M_bind, attempt.
    destruct (m w) as [[b|e|code|why] w']; try reflexivity.
    + rewrite IH. reflexivity.
    + destruct (handler e) as [h|]; reflexivity.
  - unfold try_except, mbind, M_bind.
    destruct (semaphore_acquire w) as [[b|e|code|why] w'] eqn:Hacquire;
      try reflexivity.
    + rewrite IH. reflexivity.
    + unfold semaphore_acquire in Hacquire.
      destruct (0 <? semaphore w); discriminate Hacquire.
  - apply IH.
  - unfold try_except, mbind, M_bind. cbn [asyncio_sleep]. rewrite IH.
    reflexivity.
Qed.

Lemma run_alone_release_after {A} (block : Coroutine A) :
  forall w,
    run_alone (Async.release_after block) w = release_after (run_alone block) w.
Proof.
  induction block as [a|C m k IH|k IH|http_client url k IH|delay k IH];
    intros w; cbn [Async.release_after run_alone].
  - reflexivity.
  - unfold release_after, mbind, M_bind, release_unless_returns.
    destruct (m w) as [[b|e|code|why] w']; try reflexivity.
    rewrite IH. reflexivity.
  - unfold release_after, mbind, M_bind.
    destruct (semaphore_acquire w) as [[b|e|code|why] w'] eqn:Hacquire;
      try reflexivity.
    + rewrite IH. reflexivity.
    + unfold semaphore_acquire in Hacquire.
      destruct (0 <? semaphore w); discriminate Hacquire.
    + unfold semaphore_acquire in Hacquire.
      destruct (0 <? semaphore w); discriminate Hacquire.
  - apply IH.
  - unfold release_after, mbind, M_bind. cbn [asyncio_sleep]. rewrite IH.
    reflexivity.
Qed.

(** On exceptions that agree pointwise the [try] statements agree. *)
Lemma try_except_ext {A} (block block' : M A) handler handler' w :
  (forall w', block w' = block' w') ->
  (forall e, match handler e, handler' e with
             | Some h, Some h' => forall w', h w' = h' w'
             | None, None => True
             | _, _ => False
             end) ->
  try_except block handler w = try_except block' handler' w.
Proof.
  intros Hblock Hhandler. unfold try_except. rewrite Hblock.
  destruct (block' w) as [[a|e|code|why] w']; try reflexivity.
  specialize (Hhandler e).
  destruct (handler e), (handler' e); try contradiction;
    [apply Hhandler | reflexivity].
Qed.

Lemma release_after_ext {A} (block block' : M A) w :
  (forall w', block w' = block' w') ->
  release_after block w = release_after block' w.
Proof. intros H. unfold release_after. rewrite H. reflexivity. Qed.

(** ** Rate limiter *)

Section RateLimiterFacts.

Variable int_of_str : string -> option Z.

Ltac run_monad :=
  unfold mbind, M_bind, mret, M_ret, raise, exit, hang; cbn beta iota.

(** The rate limiter run alone is the function read top to bottom, with
    each [await] carried out on the spot. *)
Lemma wait_for_rate_limit_sequential response eligible w :
  wait_for_rate_limit int_of_str response eligible w
  = (remaining_header ← header response "x-ratelimit-remaining";
     remaining ← int int_of_str remaining_header;
     if remaining =? 0 then
       reset_header ← header response "x-ratelimit-reset";
       reset ← int int_of_str reset_header;
       ratelimit_reset ← fromtimestamp reset;
       current ← datetime_now;
       let delta := ratelimit_reset - current in
       if timedelta_seconds MAX_SLEEP <? delta then
         print (RateLimitedTerminating delta);;
         exit 1
       else if timedelta_seconds 0 <? delta then
         print (RateLimitSleeping delta);;
         asyncio_sleep delta
       else mret tt
     else if eligible then
       asyncio_sleep (timedelta_seconds 1)
     else mret tt) w.
Proof.
  unfold wait_for_rate_limit, Async.wait_for_rate_limit.
  rewrite run_alone_bind. apply bind_run. intros remaining_header w1.
  rewrite run_alone_bind. apply bind_run. intros remaining w2.
  destruct (remaining =? 0).
  - rewrite run_alone_bind. apply bind_run. intros reset_header w3.
    rewrite run_alone_bind. apply bind_run. intros reset w4.
    rewrite run_alone_bind. apply bind_run. intros ratelimit_reset w5.
    rewrite run_alone_bind. apply bind_run. intros current w6. cbv zeta.
    destruct (_ <? _).
    + rewrite run_alone_bind. apply bind_run. intros _ w7. apply run_alone_run.
    + destruct (_ <? _); [|reflexivity].
      rewrite run_alone_bind. apply bind_run. intros _ w7. reflexivity.
  - destruct eligible; reflexivity.
Qed.

(** What the rate limiter does once both headers have been read and no
    request remains. *)
Lemma wait_for_rate_limit_exhausted response eligible w
    remaining_header reset_header reset :
  Response.headers response !! "x-ratelimit-remaining" = Some remaining_header ->
  int_of_str remaining_header = Some 0 ->
  Response.headers response !! "x-ratelimit-reset" = Some reset_header ->
  int_of_str reset_header = Some reset ->
  wait_for_rate_limit int_of_str response eligible w
  = match datetime_fromtimestamp (localtime w) reset with
    | inl e => (Raises e, w)
    | inr ratelimit_reset =>
        match datetime_at (localtime w) (now w) with
        | inl e => (Raises e, w)
        | inr current =>
            let delta := ratelimit_reset - current in
            if timedelta_seconds MAX_SLEEP <? delta
            then (Exits 1, snd (print (RateLimitedTerminating delta) w))
            else if timedelta_seconds 0 <? delta
            then asyncio_sleep delta (snd (print (RateLimitSleeping delta) w))
            else (Returns tt, w)
        end
    end.
Proof.
  intros H1 H2 H3 H4. rewrite wait_for_rate_limit_sequential.
  unfold header, int. rewrite H1, H3. run_monad.
  rewrite H2. cbn beta iota. rewrite Z.eqb_refl, H4. cbn beta iota zeta.
  unfold fromtimestamp, datetime_now, call.
  destruct (datetime_fromtimestamp (localtime w) reset) as [e|ratelimit_reset];
    [reflexivity|].
  run_monad.
  destruct (datetime_at (localtime w) (now w)) as [e|current]; [reflexivity|].
  run_monad.
  destruct (_ <? _); [reflexivity|].
  destruct (_ <? _); reflexivity.
Qed.

(** What it does when requests remain. *)
Lemma wait_for_rate_limit_remaining response eligible w
    remaining_header remaining :
  Response.headers response !! "x-ratelimit-remaining" = Some remaining_header ->
  int_of_str remaining_header = Some remaining ->
  remaining <> 0 ->
  wait_for_rate_limit int_of_str response eligible w
  = if eligible then asyncio_sleep (timedelta_seconds 1) w else (Returns tt, w).
Proof.
  intros H1 H2 Hne. rewrite wait_for_rate_limit_sequential.
  unfold header, int. rewrite H1. run_monad.
  rewrite H2. cbn beta iota.
  apply Z.eqb_neq in Hne. rewrite Hne. destruct eligible; reflexivity.
Qed.





End RateLimiterFacts.



(** ** Outcome classification and the deletion call *)

Section DeletionFacts.

Variable int_of_str : string -> option Z.

Ltac run_monad :=
  unfold mbind, M_bind, mret, M_ret, raise, exit, hang, datetime_now; cbn beta iota.

(** The deletion run alone is the function read top to bottom. *)
Lemma _delete_package_versions_sequential url http_client image_name
    version_id w :
  _delete_package_versions int_of_str url http_client image_name version_id w
  = async_with_semaphore
      (try_except
         (response ← await (AsyncClient.delete http_client url);
          wait_for_rate_limit int_of_str response true;;
          post_deletion_output response image_name version_id)
         (fun e =>
            match e with
            | TimeoutException message =>
                Some (print (DeleteTimedOut image_name message))
            | _ => None
            end)) w.
Proof.
  unfold _delete_package_versions, Async._delete_package_versions,
    Async.async_with_semaphore, async_with_semaphore.
  cbn [run_alone]. apply bind_ext. intros _ w1.
  rewrite run_alone_release_after. apply release_after_ext. intros w2.
  rewrite run_alone_try_except. apply try_except_ext.
  - intros w3. rewrite run_alone_bind. unfold await_delete. cbn [run_alone].
    unfold mbind at 1. unfold M_bind at 1. unfold mret at 1. unfold M_ret at 1.
    cbn beta iota.
    rewrite run_alone_bind. apply bind_run. intros response w4.
    rewrite run_alone_bind.
    change (run_alone (Async.wait_for_rate_limit int_of_str response true))
      with (wait_for_rate_limit int_of_str response true).
    apply bind_ext. intros _ w5. apply run_alone_run.
  - intros e. destruct e; cbn; try exact I. intros w3. apply run_alone_run.
Qed.

(** A response that is not an error is recorded in [deleted]. *)
Lemma post_deletion_output_success response image_name version_id w :
  is_error response = false ->
  let result := post_deletion_output response image_name version_id w in
  fst result = Returns tt
  /\ deleted (snd result) = deleted w ++ [image_name +:+ ":" +:+ str version_id]
  /\ failed (snd result) = failed w
  /\ needs_github_assistance (snd result) = needs_github_assistance w.
Proof.
  intros H. unfold post_deletion_output. cbv zeta. rewrite H.
  repeat split.
Qed.

(** A 400 whose JSON message is the assistance message is recorded in
    [needs_github_assistance]. *)
Lemma post_deletion_output_needs_assistance response image_name version_id w
    document :
  Response.status_code response = 400 ->
  Response.json response = Some document ->
  json_getitem document "message" w = (Returns (JString GITHUB_ASSISTANCE_MSG), w) ->
  let result := post_deletion_output response image_name version_id w in
  fst result = Returns tt
  /\ deleted (snd result) = deleted w
  /\ failed (snd result) = failed w
  /\ needs_github_assistance (snd result)
     = needs_github_assistance w ++ [image_name +:+ ":" +:+ str version_id].
Proof.
  intros Hs Hj Hm. unfold post_deletion_output, is_error, response_json.
  cbv zeta. rewrite Hs, Hj. cbn [Z.leb Z.eqb Z.compare Pos.compare
    Pos.compare_cont Pos.eqb andb]. run_monad. rewrite Hm.
  cbn beta iota. unfold json_eq_str. rewrite String.eqb_refl.
  repeat split.
Qed.

(** An error with another status is recorded in [failed], whatever its
    body. *)
Lemma post_deletion_output_other_status response image_name version_id w :
  is_error response = true ->
  Response.status_code response <> 400 ->
  let result := post_deletion_output response image_name version_id w in
  deleted (snd result) = deleted w
  /\ failed (snd result) = failed w ++ [image_name +:+ ":" +:+ str version_id]
  /\ needs_github_assistance (snd result) = needs_github_assistance w.
Proof.
  intros He Hs. unfold post_deletion_output, response_json. cbv zeta.
  rewrite He. apply Z.eqb_neq in Hs. rewrite Hs. run_monad.
  unfold failed_append.
  destruct (Response.json response); repeat split.
Qed.

(** C6, at an input where the code leaves the claim: a 400 response whose
    body is not JSON.  [response.json()] raises before any list is touched,
    so the identifier is recorded in none of the three lists. *)
Theorem bad_request_without_json_is_not_recorded image_name version_id w :
  post_deletion_output bad_request_not_json image_name version_id w
  = (Raises JSONDecodeError, w).
Proof. reflexivity. Qed.

(** C7: when the delete call raises [TimeoutException], the coroutine
    prints the warning and returns; [deleted], [failed] and
    [needs_github_assistance] are as before, and the permit is back. *)
Theorem timeout_is_printed_and_dropped url http_client image_name version_id
    w message :
  AsyncClient.delete http_client url = HttpRaises (TimeoutException message) ->
  0 < semaphore w ->
  let result :=
    _delete_package_versions int_of_str url http_client image_name version_id w in
  fst result = Returns tt
  /\ stdout (snd result) = stdout w ++ [DeleteTimedOut image_name message]
  /\ deleted (snd result) = deleted w
  /\ failed (snd result) = failed w
  /\ needs_github_assistance (snd result) = needs_github_assistance w
  /\ semaphore (snd result) = semaphore w.
Proof.
  intros Hd Hs. rewrite _delete_package_versions_sequential.
  unfold async_with_semaphore, semaphore_acquire, release_after, try_except,
    await.
  rewrite Hd. run_monad.
  apply Z.ltb_lt in Hs. rewrite Hs. cbn.
  repeat split. lia.
Qed.

End DeletionFacts.

Lemma timeout_is_printed_and_dropped_witness :
  let w := world_at_start sample_start in
  let result :=
    _delete_package_versions int_decimal version_url timing_out_client
      "app-a" 301 w in
  fst result = Returns tt
  /\ stdout (snd result) = stdout w ++ [DeleteTimedOut "app-a" "ReadTimeout"]
  /\ deleted (snd result) = deleted w
  /\ failed (snd result) = failed w
  /\ needs_github_assistance (snd result) = needs_github_assistance w
  /\ semaphore (snd result) = semaphore w.
Proof.
  intros w.
  apply (timeout_is_printed_and_dropped int_decimal version_url
           timing_out_client "app-a" 301 w "ReadTimeout");
    [reflexivity | reflexivity].
Defined.

(** ** Paginator *)

Section PaginatorFacts.

Variable int_of_str : string -> option Z.

Ltac run_monad :=
  unfold mbind, M_bind, mret, M_ret, raise, exit, hang; cbn beta iota.

(** A bind returns only when both of its parts do. *)
Lemma bind_returns {A B} (m : M A) (f : A -> M B) w b w' :
  (m ≫= f) w = (Returns b, w') ->
  exists a w1, m w = (Returns a, w1) /\ f a w1 = (Returns b, w').
Proof.
  unfold mbind, M_bind. destruct (m w) as [[a| | |] w1]; intros H;
    try discriminate H.
  exists a, w1. split; [reflexivity | exact H].
Qed.

(** Yielding the items of a page appends them in order and touches nothing
    else the paginator reads. *)
Lemma yield_all_appends items w :
  exists w1, yield_all items w = (Returns tt, w1)
    /\ yielded w1 = yielded w ++ items
    /\ now w1 = now w
    /\ localtime w1 = localtime w.
Proof.
  revert w. induction items as [|item rest IH]; intros w.
  - exists w. simpl. rewrite app_nil_r. repeat split.
  - destruct (IH (snd (yield item w))) as (w1 & Hrun & Hy & Hn & Hl).
    exists w1. simpl. run_monad. unfold yield at 1. cbn beta iota.
    unfold yield in Hrun, Hy, Hn, Hl. cbn [snd] in Hrun, Hy, Hn, Hl.
    rewrite Hrun. cbn [yielded now localtime] in Hy, Hn, Hl.
    rewrite Hy, Hn, Hl, <- app_assoc. repeat split.
Qed.

(** One turn of the loop on a successful page that carries items and a
    [link] header: after the items are yielded, the rate limiter runs and
    the loop goes on with the relations of the header. *)
Lemma pages_loop_page fuel http_client rels url response items link w :
  rels !! "next" = Some url ->
  AsyncClient.get http_client url = HttpResponse response ->
  is_success response = true ->
  page_items response = Some items ->
  Response.headers response !! "link" = Some link ->
  exists w1, yielded w1 = yielded w ++ items /\ now w1 = now w
    /\ localtime w1 = localtime w
    /\ pages_loop int_of_str (S fuel) http_client rels w
       = (wait_for_rate_limit int_of_str response false
            ≫= fun _ => pages_loop int_of_str fuel http_client (rels_of_link link))
           w1.
Proof.
  intros Hnext Hget Hok Hitems Hlink.
  destruct (yield_all_appends items w) as (w1 & Hrun & Hy & Hn & Hl).
  exists w1. split; [exact Hy|]. split; [exact Hn|]. split; [exact Hl|].
  cbn [pages_loop]. rewrite Hnext, Hget.
  unfold page_items in Hitems.
  destruct (Response.json response) as [document|] eqn:Hjson;
    [|discriminate Hitems].
  cbn in Hitems.
  unfold await. run_monad.
  unfold raise_for_status. rewrite Hok. run_monad.
  unfold response_json. rewrite Hjson. run_monad.
  unfold json_iter. rewrite Hitems. run_monad.
  rewrite Hrun.
  unfold header. rewrite Hlink. run_monad. reflexivity.
Qed.

(** [rate_limit_pause] says what the rate limiter of the code does: it
    returns exactly on the responses it is said to let through, the clock
    then has moved by the pause, and nothing else the paginator reads has
    changed. *)
Lemma wait_for_rate_limit_pause response w :
  let result := wait_for_rate_limit int_of_str response false w in
  match rate_limit_pause int_of_str (localtime w) (now w) response with
  | Some pause =>
      fst result = Returns tt
      /\ yielded (snd result) = yielded w
      /\ now (snd result) = now w + pause
      /\ localtime (snd result) = localtime w
  | None => fst result <> Returns tt
  end.
Proof.
  cbv zeta. unfold rate_limit_pause.
  destruct (Response.headers response !! "x-ratelimit-remaining")
    as [remaining_header|] eqn:H1.
  2: { rewrite wait_for_rate_limit_sequential. unfold header. rewrite H1.
       cbn. discriminate. }
  cbn [mbind option_bind].
  destruct (int_of_str remaining_header) as [remaining|] eqn:H2.
  2: { rewrite wait_for_rate_limit_sequential. unfold header, int.
       rewrite H1. run_monad. rewrite H2. cbn. discriminate. }
  cbn [mbind option_bind].
  destruct (Z.eqb_spec remaining 0) as [->|Hne].
  - destruct (Response.headers response !! "x-ratelimit-reset")
      as [reset_header|] eqn:H3.
    2: { rewrite wait_for_rate_limit_sequential. unfold header, int.
         rewrite H1, H3. run_monad. rewrite H2. cbn. discriminate. }
    cbn [mbind option_bind].
    destruct (int_of_str reset_header) as [reset|] eqn:H4.
    2: { rewrite wait_for_rate_limit_sequential. unfold header, int.
         rewrite H1, H3. run_monad. rewrite H2. cbn beta iota.
         rewrite Z.eqb_refl, H4. cbn. discriminate. }
    cbn [mbind option_bind].
    rewrite (wait_for_rate_limit_exhausted int_of_str _ false w _ _ _
               H1 H2 H3 H4).
    destruct (datetime_fromtimestamp (localtime w) reset)
      as [e|ratelimit_reset]; [cbn; discriminate|].
    destruct (datetime_at (localtime w) (now w)) as [e|current];
      [cbn; discriminate|].
    cbv zeta.
    destruct (Z.leb_spec (ratelimit_reset - current)
                (timedelta_seconds MAX_SLEEP)) as [Hle|Hgt].
    + destruct (Z.ltb_spec (timedelta_seconds MAX_SLEEP)
                  (ratelimit_reset - current)); [lia|].
      change (timedelta_seconds 0) with 0.
      destruct (Z.ltb_spec 0 (ratelimit_reset - current)).
      * cbn. repeat split; lia.
      * cbn. repeat split; lia.
    + destruct (Z.ltb_spec (timedelta_seconds MAX_SLEEP)
                  (ratelimit_reset - current)); [|lia].
      cbn. discriminate.
  - rewrite (wait_for_rate_limit_remaining int_of_str _ false w _ _ H1 H2 Hne).
    cbn. repeat split; lia.
Qed.

(** Whatever its state, the loop returns only after a page whose [link]
    header is present and names no [next]. *)
Lemma pages_loop_returns fuel http_client : forall rels w w',
  is_Some (rels !! "next") ->
  pages_loop int_of_str fuel http_client rels w = (Returns tt, w') ->
  exists page_url response link,
    AsyncClient.get http_client page_url = HttpResponse response
    /\ Response.headers response !! "link" = Some link
    /\ rels_of_link link !! "next" = None.
Proof.
  induction fuel as [|fuel IH]; intros rels w w' [url Hnext] Hrun.
  - simpl in Hrun. rewrite Hnext in Hrun. discriminate Hrun.
  - cbn [pages_loop] in Hrun. rewrite Hnext in Hrun.
    apply bind_returns in Hrun as (response & w1 & Hget & Hrun).
    apply bind_returns in Hrun as (_ & w2 & _ & Hrun).
    apply bind_returns in Hrun as (document & w3 & _ & Hrun).
    apply bind_returns in Hrun as (items & w4 & _ & Hrun).
    apply bind_returns in Hrun as (_ & w5 & _ & Hrun).
    apply bind_returns in Hrun as (link & w6 & Hlink & Hrun).
    apply bind_returns in Hrun as (_ & w7 & _ & Hrun).
    unfold await in Hget.
    destruct (AsyncClient.get http_client url) as [response'|e] eqn:Hanswer;
      [|discriminate Hget].
    injection Hget as -> ->.
    unfold header in Hlink.
    destruct (Response.headers response !! "link") as [link'|] eqn:Hheader;
      [|discriminate Hlink].
    injection Hlink as -> ->.
    destruct (rels_of_link link !! "next") as [next_url|] eqn:Hrels.
    + apply (IH (rels_of_link link) w7 w'); [rewrite Hrels; eauto | exact Hrun].
    + exists url, response, link. repeat split; assumption.
Qed.

(** C10: after the items of a page the generator reads
    [response.headers['link']] whatever the page is.  In every turn of the
    loop, whatever the relations and the world it has got to, a successful
    response without a [link] header has its items yielded and then
    [KeyError] is raised; and whenever the generator returns, some fetched
    response carried a [link] header whose relations have no [next]. *)
Theorem missing_link_header_raises_key_error http_client fuel :
  (forall rels url response items w,
     rels !! "next" = Some url ->
     AsyncClient.get http_client url = HttpResponse response ->
     is_success response = true ->
     page_items response = Some items ->
     Response.headers response !! "link" = None ->
     let result := pages_loop int_of_str (S fuel) http_client rels w in
     fst result = Raises (KeyError "link")
     /\ yielded (snd result) = yielded w ++ items)
  /\ (forall url w w',
        get_all_pages int_of_str fuel url http_client w = (Returns tt, w') ->
        exists page_url response link,
          AsyncClient.get http_client page_url = HttpResponse response
          /\ Response.headers response !! "link" = Some link
          /\ rels_of_link link !! "next" = None).
Proof.
  split.
  - intros rels url response items w Hnext Hget Hok Hitems Hlink.
    destruct (yield_all_appends items w) as (w1 & Hrun & Hy & _).
    cbn [pages_loop]. rewrite Hnext, Hget.
    unfold page_items in Hitems.
    destruct (Response.json response) as [document|] eqn:Hjson;
      [|discriminate Hitems].
    cbn in Hitems.
    unfold await. run_monad.
    unfold raise_for_status. rewrite Hok. run_monad.
    unfold response_json. rewrite Hjson. run_monad.
    unfold json_iter. rewrite Hitems. run_monad.
    rewrite Hrun.
    unfold header. rewrite Hlink. run_monad.
    split; [reflexivity | exact Hy].
  - intros url w w' Hrun. unfold get_all_pages in Hrun.
    eapply pages_loop_returns; [|exact Hrun].
    rewrite lookup_singleton_eq. eauto.
Qed.

End PaginatorFacts.

Section PaginatorChain.

Variable int_of_str : string -> option Z.

Ltac run_monad :=
  unfold mbind, M_bind, mret, M_ret, raise, exit, hang; cbn beta iota.

Lemma pages_loop_no_next fuel http_client rels w :
  rels !! "next" = None ->
  pages_loop int_of_str fuel http_client rels w = (Returns tt, w).
Proof. intros H. destruct fuel; simpl; rewrite H; reflexivity. Qed.

Lemma items_of_pages_cons page pages items :
  page_items page = Some items ->
  items_of_pages (page :: pages) = items ++ items_of_pages pages.
Proof. intros H. unfold items_of_pages. simpl. rewrite H. reflexivity. Qed.

(** The rate limiter returns on the first page of a listing that is let
    through, and the rest is let through from the world it leaves. *)
Lemma let_through_cons page pages w :
  let_through int_of_str (localtime w) (now w) (page :: pages) = true ->
  exists w', wait_for_rate_limit int_of_str page false w = (Returns tt, w')
    /\ yielded w' = yielded w
    /\ let_through int_of_str (localtime w') (now w') pages = true.
Proof.
  cbn [let_through]. intros Hthrough.
  pose proof (wait_for_rate_limit_pause int_of_str page w) as Hpause.
  cbv zeta in Hpause.
  destruct (rate_limit_pause int_of_str (localtime w) (now w) page)
    as [pause|]; [|discriminate Hthrough].
  destruct Hpause as (Hout & Hy & Hn & Hl).
  destruct (wait_for_rate_limit int_of_str page false w) as [o w'].
  cbn [fst snd] in *. subst o. exists w'.
  split; [reflexivity|]. split; [exact Hy|]. rewrite Hl, Hn. exact Hthrough.
Qed.

(** The loop on a chain, from any state of the loop whose [next] is the
    first URL of the chain. *)
Lemma pages_loop_chain http_client url pages ending :
  next_chain http_client url pages ending ->
  forall rels w fuel,
    rels !! "next" = Some url ->
    Forall (fun page => is_Some (page_items page)) pages ->
    let_through int_of_str (localtime w) (now w) pages = true ->
    (List.length pages < fuel)%nat ->
    let result := pages_loop int_of_str fuel http_client rels w in
    fst result = chain_outcome ending
    /\ yielded (snd result) = yielded w ++ items_of_pages pages.
Proof.
  induction 1 as [url response link Hget Hok Hlink Hrels
                 |url response Hget Hok
                 |url response link next_url pages ending Hget Hok Hlink Hrels
                    Hchain IH];
    intros rels w fuel Hnext Hpages Hthrough Hfuel.
  - destruct fuel as [|fuel]; [simpl in Hfuel; lia|].
    apply Forall_cons_iff in Hpages as [[items Hitems] _].
    destruct (pages_loop_page int_of_str fuel http_client rels url response
                items link w Hnext Hget Hok Hitems Hlink)
      as (w1 & Hy1 & Hn1 & Hl1 & ->).
    rewrite <- Hn1, <- Hl1 in Hthrough.
    destruct (let_through_cons response [] w1 Hthrough)
      as (w2 & Hwait & Hy2 & _).
    cbv zeta. run_monad. rewrite Hwait.
    rewrite (pages_loop_no_next _ _ _ _ Hrels). cbn [fst snd chain_outcome].
    rewrite (items_of_pages_cons _ _ _ Hitems).
    unfold items_of_pages. simpl. rewrite app_nil_r.
    split; [reflexivity | congruence].
  - destruct fuel as [|fuel]; [simpl in Hfuel; lia|].
    cbv zeta. cbn [pages_loop]. rewrite Hnext, Hget.
    unfold await. run_monad. unfold raise_for_status. rewrite Hok. run_monad.
    cbn [fst snd chain_outcome]. unfold items_of_pages. simpl.
    rewrite app_nil_r. split; reflexivity.
  - destruct fuel as [|fuel]; [simpl in Hfuel; lia|].
    apply Forall_cons_iff in Hpages as [[items Hitems] Hrest].
    destruct (pages_loop_page int_of_str fuel http_client rels url response
                items link w Hnext Hget Hok Hitems Hlink)
      as (w1 & Hy1 & Hn1 & Hl1 & ->).
    rewrite <- Hn1, <- Hl1 in Hthrough.
    destruct (let_through_cons response pages w1 Hthrough)
      as (w2 & Hwait & Hy2 & Hthrough2).
    cbv zeta. run_monad. rewrite Hwait.
    destruct (IH (rels_of_link link) w2 fuel Hrels) as [Hout Hy];
      [exact Hrest | exact Hthrough2 | simpl in Hfuel; lia |].
    split; [exact Hout|].
    rewrite Hy, (items_of_pages_cons _ _ _ Hitems), Hy2, Hy1, app_assoc.
    reflexivity.
Qed.

(** C8, as the code has it: follow the [next] relations from a URL through
    successful pages that carry an iterable body and a [link] header, each
    let through by the rate limiter at the time the listing gets to it (its
    [x-ratelimit-remaining] is an integer and, when that is 0, its
    [x-ratelimit-reset] is a timestamp that [datetime.fromtimestamp]
    accepts and that reads at most 600 seconds after the clock, both in
    local time).  Given fuel for the pages, the generator yields the items
    of every page in page order; it returns once a page's relations have no
    [next], also when that page has no items, and it raises
    [HTTPStatusError] when a request of the chain is answered with an
    unsuccessful status, after the items of the pages before it. *)
Theorem paginator_follows_next_chain http_client url pages ending w fuel :
  next_chain http_client url pages ending ->
  Forall (fun page => is_Some (page_items page)) pages ->
  let_through int_of_str (localtime w) (now w) pages = true ->
  (List.length pages < fuel)%nat ->
  let result := get_all_pages int_of_str fuel url http_client w in
  fst result = chain_outcome ending
  /\ yielded (snd result) = yielded w ++ items_of_pages pages.
Proof.
  intros Hchain Hpages Hthrough Hfuel. unfold get_all_pages.
  apply (pages_loop_chain http_client url pages ending Hchain);
    [apply lookup_singleton_eq | exact Hpages | exact Hthrough | exact Hfuel].
Qed.

End PaginatorChain.

(** C8 as stated fails when the rate limiter stops the run: the listing
    fits one successful page whose [link] header names no [next], the page
    reports no request remaining and a reset 700 seconds away.  The
    generator yields the two items and the process exits with code 1. *)
Lemma paginator_exits_after_last_page :
  next_chain exhausted_client packages_url [exhausted_last_page] NoNextRelation
  /\ page_items exhausted_last_page = Some [JNumber 1; JNumber 2]
  /\ get_all_pages int_decimal 2 packages_url exhausted_client
       (world_at_start sample_start)
     = (Exits 1,
        snd (print (RateLimitedTerminating (timedelta_seconds 700))
               (snd (yield_all [JNumber 1; JNumber 2]
                       (world_at_start sample_start))))).
Proof.
  split; [|split].
  - apply (chain_last exhausted_client packages_url exhausted_last_page
             (link_value packages_url "first")); vm_compute; reflexivity.
  - reflexivity.
  - reflexivity.
Qed.

Lemma paginator_follows_next_chain_witness :
  let result :=
    get_all_pages int_decimal 3 packages_url two_page_client
      (world_at_start sample_start) in
  fst result = Returns tt
  /\ yielded (snd result) = [JNumber 1; JNumber 2].
Proof.
  apply (paginator_follows_next_chain int_decimal two_page_client packages_url
           [first_page; empty_second_page] NoNextRelation
           (world_at_start sample_start) 3).
  - apply (chain_next two_page_client packages_url first_page
             (link_value packages_url_2 "next") packages_url_2);
      [vm_compute; reflexivity | vm_compute; reflexivity
      | vm_compute; reflexivity | vm_compute; reflexivity |].
    apply (chain_last two_page_client packages_url_2 empty_second_page
             (link_value packages_url "prev")); vm_compute; reflexivity.
  - repeat constructor; eexists; reflexivity.
  - vm_compute. reflexivity.
  - simpl. lia.
Defined.

(** A listing whose second page has no [link] header: the items of both
    pages are yielded, and [KeyError] ends the listing. *)
Example second_page_without_link_raises :
  let result :=
    get_all_pages int_decimal 3 packages_url second_page_without_link_client
      (world_at_start sample_start) in
  fst result = Raises (KeyError "link")
  /\ yielded (snd result) = [JNumber 1; JNumber 2; JNumber 1].
Proof. vm_compute. split; reflexivity. Qed.

Lemma missing_link_header_raises_key_error_witness :
  let w := world_at_start sample_start in
  (let result :=
     pages_loop int_decimal 1 second_page_without_link_client
       (rels_of_link (link_value packages_url_2 "next")) w in
   fst result = Raises (KeyError "link")
   /\ yielded (snd result) = [JNumber 1])
  /\ (exists page_url response link,
        AsyncClient.get two_page_client page_url = HttpResponse response
        /\ Response.headers response !! "link" = Some link
        /\ rels_of_link link !! "next" = None).
Proof.
  intros w. split.
  - apply (proj1 (missing_link_header_raises_key_error int_decimal
                    second_page_without_link_client 0)
             (rels_of_link (link_value packages_url_2 "next")) packages_url_2
             page_without_link [JNumber 1] w); vm_compute; reflexivity.
  - apply (proj2 (missing_link_header_raises_key_error int_decimal
                    two_page_client 3) packages_url w
             (snd (get_all_pages int_decimal 3 packages_url two_page_client w))).
    reflexivity.
Defined.

(** ** The semaphore *)

Section SemaphoreFacts.

Variable int_of_str : string -> option Z.
Variable http_client : AsyncClient.t.

Lemma inside_block_ret {A} (a : A) : inside_block (mret a : M A).
Proof. intros w. split; [reflexivity | discriminate]. Qed.

Lemma inside_block_raise {A} e : inside_block (raise e : M A).
Proof. intros w. split; [reflexivity | discriminate]. Qed.

Lemma inside_block_exit {A} code : inside_block (exit code : M A).
Proof. intros w. split; [reflexivity | discriminate]. Qed.

Lemma inside_block_bind {A B} (m : M A) (f : A -> M B) :
  inside_block m -> (forall a, inside_block (f a)) -> inside_block (m ≫= f).
Proof.
  intros Hm Hf w. unfold mbind, M_bind.
  destruct (Hm w) as [Hs Hh].
  destruct (m w) as [[a|e|code|why] w1]; cbn [fst snd] in *.
  - destruct (Hf a w1) as [Hs' Hh']. split; [congruence | exact Hh'].
  - split; [exact Hs | discriminate].
  - split; [exact Hs | discriminate].
  - exfalso. apply (Hh why). reflexivity.
Qed.

Lemma inside_block_print line : inside_block (print line).
Proof. intros w. split; [reflexivity | discriminate]. Qed.

Lemma inside_block_header response key : inside_block (header response key).
Proof.
  unfold header. destruct (_ !! _);
    [apply inside_block_ret | apply inside_block_raise].
Qed.

Lemma inside_block_int s : inside_block (int int_of_str s).
Proof.
  unfold int. destruct (int_of_str s);
    [apply inside_block_ret | apply inside_block_raise].
Qed.

Lemma inside_block_fromtimestamp timestamp :
  inside_block (fromtimestamp timestamp).
Proof.
  intros w. unfold fromtimestamp, call.
  destruct (datetime_fromtimestamp _ _); split; try reflexivity; discriminate.
Qed.

Lemma inside_block_datetime_now : inside_block datetime_now.
Proof.
  intros w. unfold datetime_now, call.
  destruct (datetime_at _ _); split; try reflexivity; discriminate.
Qed.

Lemma inside_block_await answer : inside_block (await answer).
Proof.
  unfold await. destruct answer;
    [apply inside_block_ret | apply inside_block_raise].
Qed.

Lemma inside_block_response_json response :
  inside_block (response_json response).
Proof.
  unfold response_json. destruct (Response.json response);
    [apply inside_block_ret | apply inside_block_raise].
Qed.

Lemma inside_block_json_getitem document key :
  inside_block (json_getitem document key).
Proof.
  unfold json_getitem.
  destruct document; try apply inside_block_raise.
  destruct (List.find _ _);
    [apply inside_block_ret | apply inside_block_raise].
Qed.

Lemma inside_block_post_deletion_output response image_name version_id :
  inside_block (post_deletion_output response image_name version_id).
Proof.
  assert (Hfail : forall s status,
    inside_block (failed_append s;;
                  _ ← response_json response;
                  print (CouldNotDelete s status))).
  { intros s status.
    apply inside_block_bind;
      [intros w; split; [reflexivity | discriminate] | intros _].
    apply inside_block_bind; [apply inside_block_response_json | intros _].
    apply inside_block_print. }
  unfold post_deletion_output. cbv zeta.
  destruct (is_error response).
  - destruct (_ =? 400); [|apply Hfail].
    apply inside_block_bind; [apply inside_block_response_json | intros document].
    apply inside_block_bind; [apply inside_block_json_getitem | intros message].
    destruct (json_eq_str _ _); [|apply Hfail].
    intros w; split; [reflexivity | discriminate].
  - apply inside_block_bind;
      [intros w; split; [reflexivity | discriminate] | intros _].
    apply inside_block_print.
Qed.

Lemma inside_block_attempt {A} (m : M A) :
  inside_block m -> inside_block (attempt m).
Proof.
  intros Hm w. destruct (Hm w) as [Hs Hh]. unfold attempt.
  destruct (m w) as [[a|e|code|why] w1]; cbn [fst snd] in *;
    (split; [exact Hs|]); try discriminate.
  intros why' _. apply (Hh why). reflexivity.
Qed.

Lemma inside_block_coroutine_run {A} (m : M A) :
  inside_block m -> inside_block_coroutine (run m).
Proof. intros Hm. split; [exact Hm | intros b; exact I]. Qed.

Lemma inside_block_coroutine_bind {A B} (c : Coroutine A)
    (f : A -> Coroutine B) :
  inside_block_coroutine c ->
  (forall a, inside_block_coroutine (f a)) ->
  inside_block_coroutine (c ≫= f).
Proof.
  intros Hc Hf. unfold mbind, Coroutine_bind.
  induction c as [a|C m k IH|k IH|client url k IH|delay k IH];
    cbn [coroutine_bind inside_block_coroutine] in *.
  - apply Hf.
  - destruct Hc as [Hm Hk]. split; [exact Hm|]. intros b. apply IH, Hk.
  - contradiction.
  - intros answer. apply IH, Hc.
  - apply IH, Hc.
Qed.

Lemma inside_block_coroutine_try_except {A} (block : Coroutine A) handler :
  inside_block_coroutine block ->
  (forall e h, handler e = Some h -> inside_block_coroutine h) ->
  inside_block_coroutine (Async.try_except block handler).
Proof.
  intros Hblock Hhandler.
  induction block as [a|C m k IH|k IH|client url k IH|delay k IH];
    cbn [Async.try_except inside_block_coroutine] in *.
  - exact I.
  - destruct Hblock as [Hm Hk]. split; [apply inside_block_attempt, Hm|].
    intros [e|b].
    + destruct (handler e) as [h|] eqn:Hh; [apply (Hhandler e h Hh)|].
      apply inside_block_coroutine_run, inside_block_raise.
    + apply IH, Hk.
  - contradiction.
  - intros answer. apply IH, Hblock.
  - apply IH, Hblock.
Qed.

(** The rate limiter neither touches the semaphore nor waits for it. *)
Lemma inside_block_coroutine_wait_for_rate_limit response eligible :
  inside_block_coroutine (Async.wait_for_rate_limit int_of_str response eligible).
Proof.
  unfold Async.wait_for_rate_limit.
  apply inside_block_coroutine_bind;
    [apply inside_block_coroutine_run, inside_block_header
    | intros remaining_header].
  apply inside_block_coroutine_bind;
    [apply inside_block_coroutine_run, inside_block_int | intros remaining].
  destruct (remaining =? 0).
  - apply inside_block_coroutine_bind;
      [apply inside_block_coroutine_run, inside_block_header
      | intros reset_header].
    apply inside_block_coroutine_bind;
      [apply inside_block_coroutine_run, inside_block_int | intros reset].
    apply inside_block_coroutine_bind;
      [apply inside_block_coroutine_run, inside_block_fromtimestamp
      | intros ratelimit_reset].
    apply inside_block_coroutine_bind;
      [apply inside_block_coroutine_run, inside_block_datetime_now
      | intros current].
    cbv zeta. destruct (_ <? _).
    + apply inside_block_coroutine_bind;
        [apply inside_block_coroutine_run, inside_block_print | intros _].
      apply inside_block_coroutine_run, inside_block_exit.
    + destruct (_ <? _); [|exact I].
      apply inside_block_coroutine_bind;
        [apply inside_block_coroutine_run, inside_block_print | intros _].
      exact I.
  - destruct eligible; exact I.
Qed.

Lemma holds_permits_eq {A} permits permits' (c : Coroutine A) :
  permits = permits' -> holds_permits permits c -> holds_permits permits' c.
Proof. intros ->. exact id. Qed.

(** A block that leaves the semaphore alone, entered with one permit in
    hand and left through the release: the permit is in hand at every
    request and given back at every way out. *)
Lemma holds_permits_release_after {A} (block : Coroutine A) :
  inside_block_coroutine block ->
  holds_permits 1 (Async.release_after block).
Proof.
  induction block as [a|C m k IH|k IH|client url k IH|delay k IH];
    cbn [Async.release_after holds_permits inside_block_coroutine].
  - intros _ w. cbn. lia.
  - intros [Hm Hk] w. unfold release_unless_returns.
    destruct (Hm w) as [Hs Hh].
    destruct (m w) as [[b|e|code|why] w1]; cbn [fst snd] in *.
    + split; [lia|].
      apply (holds_permits_eq 1); [lia | apply IH, Hk].
    + cbn. lia.
    + cbn. lia.
    + apply (Hh why). reflexivity.
  - contradiction.
  - intros Hk. split; [reflexivity|]. intros answer. apply IH, Hk.
  - intros Hk. split; [lia | apply IH, Hk].
Qed.

(** The deletion takes its permit before it sends the request and gives it
    back however it ends. *)
Lemma _delete_package_versions_holds_permits url image_name version_id :
  holds_permits 0
    (Async._delete_package_versions int_of_str url http_client image_name
       version_id).
Proof.
  unfold Async._delete_package_versions, Async.async_with_semaphore.
  cbn [holds_permits]. split; [reflexivity|].
  apply holds_permits_release_after.
  apply inside_block_coroutine_try_except.
  - apply inside_block_coroutine_bind; [intros answer; exact I | intros answer].
    apply inside_block_coroutine_bind;
      [apply inside_block_coroutine_run, inside_block_await | intros response].
    apply inside_block_coroutine_bind;
      [apply inside_block_coroutine_wait_for_rate_limit | intros _].
    apply inside_block_coroutine_run, inside_block_post_deletion_output.
  - intros e h He. destruct e; try discriminate He. injection He as <-.
    apply inside_block_coroutine_run, inside_block_print.
Qed.

(** Running a coroutine up to its next [await] keeps its job in order, and
    the semaphore does not go below zero. *)
Lemma advance_in_order (c : Coroutine unit) : forall permits w count,
  holds_permits permits c ->
  0 <= semaphore w ->
  count = permits + semaphore w - semaphore (snd (advance c w)) ->
  job_in_order {| Job.state := fst (advance c w); Job.permits := count |}
  /\ 0 <= semaphore (snd (advance c w)).
Proof.
  induction c as [a|C m k IH|k IH|client url k IH|delay k IH];
    intros permits w count Hc Hw Hcount;
    cbn [advance holds_permits] in *.
  - cbn [fst snd] in *. unfold job_in_order. cbn. split; lia.
  - specialize (Hc w).
    destruct (m w) as [[b|e|code|why] w1].
    + destruct Hc as [Hle Hk].
      apply (IH b _ w1 count Hk); lia.
    + cbn [fst snd] in *. unfold job_in_order. cbn. split; lia.
    + cbn [fst snd] in *. unfold job_in_order. cbn. split; lia.
    + contradiction.
  - destruct Hc as [-> Hk].
    destruct (Z.ltb_spec 0 (semaphore w)).
    + apply (IH 1 (set_semaphore (semaphore w - 1) w) count Hk);
        cbn [semaphore set_semaphore]; lia.
    + cbn [fst snd] in *. unfold job_in_order. cbn. split; [|exact Hw].
      split; [lia | exact Hk].
  - destruct Hc as [-> Hk]. cbn [fst snd] in *.
    unfold job_in_order. cbn. split; [|exact Hw]. split; [lia | exact Hk].
  - destruct Hc as [Hp Hk]. cbn [fst snd semaphore sleep_starts] in *.
    unfold job_in_order. cbn. split; [|exact Hw].
    assert (count = permits) as -> by lia. split; [exact Hp | exact Hk].
Qed.

(** What a job in order is resumed with deals with the permits the job has
    in hand. *)
Lemma resumption_holds_permits clock job c :
  job_in_order job ->
  resumption clock (Job.state job) = Some c ->
  holds_permits (Job.permits job) c.
Proof.
  unfold job_in_order, resumption.
  destruct (Job.state job) as [c0|k|client url k|until k|outcome];
    intros Hjob Hc.
  - injection Hc as <-. apply Hjob.
  - injection Hc as <-. exact Hjob.
  - injection Hc as <-. destruct Hjob as [-> Hk]. apply Hk.
  - destruct (until <=? clock); [|discriminate Hc].
    injection Hc as <-. apply Hjob.
  - discriminate Hc.
Qed.

Lemma permits_held_app jobs jobs' :
  permits_held (jobs ++ jobs') = permits_held jobs + permits_held jobs'.
Proof.
  unfold permits_held. induction jobs as [|job rest IH]; simpl; lia.
Qed.

Lemma permits_held_insert (jobs : list Job.t) i job job' :
  jobs !! i = Some job ->
  permits_held (<[i := job']> jobs)
  = permits_held jobs - Job.permits job + Job.permits job'.
Proof.
  revert i. induction jobs as [|first rest IH]; intros i Hi.
  - discriminate Hi.
  - destruct i as [|i]; simpl in *.
    + injection Hi as ->. unfold permits_held. simpl. lia.
    + specialize (IH i Hi). unfold permits_held in *. simpl. lia.
Qed.

(** The requests in flight are no more than the permits in hand. *)
Lemma requests_in_flight_permits_held jobs :
  Forall job_in_order jobs ->
  Z.of_nat (List.length (List.filter is_requesting jobs)) <= permits_held jobs.
Proof.
  induction 1 as [|job rest Hjob _ IH]; [reflexivity|].
  unfold permits_held in *. cbn [List.filter fold_right].
  unfold job_in_order in Hjob. unfold is_requesting at 1.
  destruct (Job.state job); cbn [List.length];
    rewrite ?Nat2Z.inj_succ; lia.
Qed.

Lemma step_keeps_balance run event run' :
  permits_balance run ->
  step int_of_str http_client run event = Some run' ->
  permits_balance run'.
Proof.
  unfold permits_balance, step. intros (Hsum & Hpos & Hjobs) Hstep.
  destruct (exit_code run); [discriminate Hstep|].
  destruct event as [url image_name version_id|i|elapsed].
  - injection Hstep as <-. cbn [world jobs].
    rewrite permits_held_app. unfold permits_held at 2.
    cbn [fold_right Job.permits].
    split; [lia|]. split; [exact Hpos|].
    apply Forall_app. split; [exact Hjobs|]. constructor; [|constructor].
    unfold job_in_order. cbn [Job.state Job.permits]. split; [|reflexivity].
    apply _delete_package_versions_holds_permits.
  - destruct (jobs run !! i) as [job|] eqn:Hjob; [|discriminate Hstep].
    destruct (resumption (now (world run)) (Job.state job)) as [c|] eqn:Hc;
      [|discriminate Hstep].
    assert (Hin : job_in_order job)
      by (eapply Forall_lookup_1; eassumption).
    pose proof (resumption_holds_permits _ _ _ Hin Hc) as Hholds.
    destruct (advance_in_order c (Job.permits job) (world run)
                (Job.permits job + semaphore (world run)
                 - semaphore (snd (advance c (world run)))) Hholds Hpos
                eq_refl) as [Hnew Hpos'].
    destruct (advance c (world run)) as [state w].
    injection Hstep as <-. cbn [world jobs fst snd] in *.
    rewrite (permits_held_insert _ _ _ _ Hjob). cbn [Job.permits].
    split; [lia|]. split; [exact Hpos'|].
    apply Forall_insert; assumption.
  - destruct (0 <=? elapsed); [|discriminate Hstep].
    injection Hstep as <-. cbn [world jobs semaphore clock_advances].
    split; [exact Hsum|]. split; [exact Hpos | exact Hjobs].
Qed.

Lemma run_events_keeps_balance events : forall run run',
  permits_balance run ->
  run_events int_of_str http_client run events = Some run' ->
  permits_balance run'.
Proof.
  induction events as [|event rest IH]; intros run run' Hbal Hrun.
  - injection Hrun as <-. exact Hbal.
  - simpl in Hrun.
    destruct (step int_of_str http_client run event) as [run1|] eqn:Hstep;
      [|discriminate Hrun].
    apply (IH run1 run'); [|exact Hrun].
    eapply step_keeps_balance; eassumption.
Qed.

(** C9: a call of [_delete_package_versions] asks for a permit with none
    in hand, sends its request with exactly one in hand and has given it
    back when it ends, however it ends.  So in every state that the event
    loop reaches from the start of [main], with any number of deletions
    submitted and whatever the order in which the loop resumes them: a job
    whose request is in flight has one permit in hand, a job that has ended
    has none, the free permits and the permits in hand add up to 50, and at
    most 50 requests are in flight. *)
Theorem at_most_fifty_in_flight w events run :
  semaphore w = main_semaphore ->
  run_events int_of_str http_client (run_from w) events = Some run ->
  (forall url image_name version_id,
     holds_permits 0
       (Async._delete_package_versions int_of_str url http_client image_name
          version_id))
  /\ requests_in_flight run <= 50
  /\ Forall permit_in_hand (jobs run)
  /\ semaphore (world run) + permits_held (jobs run) = 50
  /\ 0 <= semaphore (world run).
Proof.
  intros Hw Hrun.
  assert (Hstart : permits_balance (run_from w)).
  { unfold permits_balance. cbn. rewrite Hw. unfold main_semaphore.
    split; [reflexivity|]. split; [lia | constructor]. }
  destruct (run_events_keeps_balance events _ _ Hstart Hrun)
    as (Hsum & Hpos & Hjobs).
  unfold main_semaphore in Hsum.
  split; [apply _delete_package_versions_holds_permits|].
  split.
  { unfold requests_in_flight.
    pose proof (requests_in_flight_permits_held _ Hjobs). lia. }
  split; [|split; [exact Hsum | exact Hpos]].
  eapply Forall_impl; [exact Hjobs|].
  intros job. unfold job_in_order, permit_in_hand.
  destruct (Job.state job); intros Hjob; lia.
Qed.

End SemaphoreFacts.

(** After 120 submissions, with every job started, 50 requests are in
    flight, no permit is free and the other 70 jobs wait; when the first
    job has ended and the next in line has been resumed, 50 requests are in
    flight again. *)
Example fifty_requests_in_flight :
  (let started :=
     run_events int_decimal deleting_client
       (run_from (world_at_start sample_start))
       (map (fun i => Submit version_url "app-a" (Z.of_nat i)) (seq 0 120)
        ++ map Resume (seq 0 120)) in
   (fun run => (requests_in_flight run, semaphore (world run))) <$> started)
  = Some (50, 0)
  /\ (let busy :=
        run_events int_decimal deleting_client
          (run_from (world_at_start sample_start)) busy_events in
      (fun run => (requests_in_flight run, semaphore (world run),
                   deleted (world run))) <$> busy)
     = Some (50, 0, ["app-a:0"]).
Proof. split; vm_compute; reflexivity. Qed.

Lemma at_most_fifty_in_flight_witness :
  exists run,
    run_events int_decimal deleting_client
      (run_from (world_at_start sample_start)) busy_events = Some run
    /\ requests_in_flight run <= 50
    /\ semaphore (world run) + permits_held (jobs run) = 50.
Proof.
  destruct (run_events int_decimal deleting_client
              (run_from (world_at_start sample_start)) busy_events)
    as [run|] eqn:Hrun.
  - exists run. split; [reflexivity|].
    destruct (at_most_fifty_in_flight int_decimal deleting_client
                (world_at_start sample_start) busy_events run eq_refl Hrun)
      as (_ & H1 & _ & H2 & _).
    split; assumption.
  - exfalso.
    assert (Hsome : is_Some
              (run_events int_decimal deleting_client
                 (run_from (world_at_start sample_start)) busy_events)).
    { apply (bool_decide_unpack _).
      vm_compute. reflexivity. }
    rewrite Hrun in Hsome. destruct Hsome as [run' Hsome]. discriminate Hsome.
Defined.

(** * More of the code *)

(** ** Retention filter: what the loop schedules as a whole *)

Section RetentionFilterMore.

Variable fnmatch : string -> string -> bool.

(** One iteration appends nothing, or the task of its version when the
    version is one that [selected_without_keep] accepts. *)
Lemma loop_body_appends image_name inputs st version :
  tasks (loop_body fnmatch image_name inputs st version) = tasks st
  \/ (selected_without_keep fnmatch inputs version = true
      /\ tasks (loop_body fnmatch image_name inputs st version)
         = tasks st ++ [delete_task image_name inputs version]).
Proof.
  destruct (loop_body_tasks fnmatch image_name inputs st version)
    as [Hsame|(t & Hgate & Hts & Hle)]; [left; exact Hsame|].
  rewrite (loop_body_in_window fnmatch image_name inputs st version t
             Hgate Hts Hle).
  unfold selected_without_keep. rewrite Hts.
  destruct (tag_policy_selects _ _ _); [right | left; reflexivity].
  split; [|reflexivity].
  rewrite andb_true_r. apply Z.leb_le. exact Hle.
Qed.

Lemma loop_from_extends image_name inputs versions : forall st,
  exists extra,
    tasks (loop_from fnmatch image_name inputs st versions) = tasks st ++ extra
    /\ sublist extra
         (map (delete_task image_name inputs)
              (List.filter (selected_without_keep fnmatch inputs) versions)).
Proof.
  induction versions as [|v rest IH]; intros st.
  - exists []. simpl. rewrite app_nil_r. split; [reflexivity | constructor].
  - cbn [loop_from fold_left].
    destruct (IH (loop_body fnmatch image_name inputs st v))
      as (extra & Htasks & Hsub).
    unfold loop_from in Htasks. rewrite Htasks.
    destruct (loop_body_appends image_name inputs st v) as [Hsame|[Hsel Happ]].
    + exists extra. rewrite Hsame. split; [reflexivity|].
      cbn [List.filter].
      destruct (selected_without_keep fnmatch inputs v);
        [cbn [map]; apply sublist_cons|]; exact Hsub.
    + exists (delete_task image_name inputs v :: extra).
      rewrite Happ, <- app_assoc. split; [reflexivity|].
      cbn [List.filter]. rewrite Hsel. cbn [map].
      apply sublist_skip. exact Hsub.
Qed.

(** Whatever [keep_at_least] is, the tasks the loop creates are, in listing
    order, tasks of versions of the listing whose timestamp is present and
    not after the cut-off and which the tag policy selects; no version gets
    two tasks, so distinct version ids give distinct deletions. *)
Theorem scheduled_tasks_are_selected_versions image_name inputs versions :
  sublist (select_package_versions_to_delete fnmatch image_name inputs versions)
          (map (delete_task image_name inputs)
               (List.filter (selected_without_keep fnmatch inputs) versions))
  /\ (NoDup (map PackageVersionResponse.id versions) ->
      NoDup (map Task.version_id
               (select_package_versions_to_delete fnmatch image_name inputs
                  versions))).
Proof.
  destruct (loop_from_extends image_name inputs versions loop_start)
    as (extra & Htasks & Hsub).
  unfold select_package_versions_to_delete, run_loop.
  rewrite Htasks. cbn [loop_start tasks app].
  split; [exact Hsub|].
  intros Hids.
  assert (Hall : sublist (map Task.version_id extra)
                   (map PackageVersionResponse.id versions)).
  { transitivity
      (map Task.version_id
         (map (delete_task image_name inputs)
            (List.filter (selected_without_keep fnmatch inputs) versions))).
    - apply (fmap_sublist Task.version_id). exact Hsub.
    - rewrite map_map. cbn [delete_task Task.version_id].
      apply (fmap_sublist PackageVersionResponse.id). clear.
      induction versions as [|v rest IH]; [constructor|].
      cbn [List.filter].
      destruct (selected_without_keep fnmatch inputs v);
        [apply sublist_skip | apply sublist_cons]; exact IH. }
  eapply sublist_NoDup; [exact Hids | exact Hall].
Qed.

(** With [keep_at_least] at 0 the loop is a filter: it creates the task of
    every version whose timestamp is present and not after the cut-off and
    which the tag policy selects, in listing order, and of no other. *)
Theorem without_keep_the_loop_is_a_filter image_name inputs versions :
  Inputs.keep_at_least inputs <= 0 ->
  select_package_versions_to_delete fnmatch image_name inputs versions
  = map (delete_task image_name inputs)
        (List.filter (selected_without_keep fnmatch inputs) versions).
Proof.
  intros Hkeep.
  assert (Hgate : forall st,
    ~ (0 < Inputs.keep_at_least inputs
       /\ Inputs.keep_at_least inputs = index st)) by (intros st [H _]; lia).
  assert (Hbody : forall st v,
    tasks (loop_body fnmatch image_name inputs st v)
    = tasks st ++ (if selected_without_keep fnmatch inputs v
                   then [delete_task image_name inputs v] else [])).
  { intros st v. unfold selected_without_keep.
    destruct (getattr_timestamp v (Inputs.timestamp_to_use inputs))
      as [t|] eqn:Hts.
    - destruct (Z.leb_spec t (Inputs.cut_off inputs)) as [Hle|Hlt].
      + rewrite (loop_body_in_window fnmatch image_name inputs st v t
                   (Hgate st) Hts Hle).
        cbn [andb]. destruct (tag_policy_selects _ _ _);
          [reflexivity | rewrite app_nil_r; reflexivity].
      + rewrite (loop_body_too_recent fnmatch image_name inputs st v t Hts Hlt).
        cbn [andb]. rewrite app_nil_r. reflexivity.
    - unfold loop_body. rewrite Hts.
      destruct (_ && _); cbn [tasks]; rewrite app_nil_r; reflexivity. }
  assert (Hloop : forall st,
    tasks (loop_from fnmatch image_name inputs st versions)
    = tasks st ++ map (delete_task image_name inputs)
                    (List.filter (selected_without_keep fnmatch inputs) versions)).
  { induction versions as [|v rest IH]; intros st.
    - simpl. rewrite app_nil_r. reflexivity.
    - cbn [loop_from fold_left]. unfold loop_from in IH.
      rewrite IH, Hbody, <- app_assoc. f_equal.
      cbn [List.filter]. destruct (selected_without_keep fnmatch inputs v);
        reflexivity. }
  unfold select_package_versions_to_delete, run_loop. rewrite Hloop.
  reflexivity.
Qed.

(** Once [index] has reached a positive [keep_at_least] every iteration is
    a [continue]. *)
Lemma loop_from_gate_closed image_name inputs st versions :
  0 < Inputs.keep_at_least inputs ->
  index st = Inputs.keep_at_least inputs ->
  loop_from fnmatch image_name inputs st versions = st.
Proof.
  intros Hpos Hidx. induction versions as [|v rest IH]; [reflexivity|].
  cbn [loop_from fold_left].
  assert (Hbody : loop_body fnmatch image_name inputs st v = st).
  { unfold loop_body.
    apply Z.ltb_lt in Hpos. rewrite Hpos, <- Hidx, Z.eqb_refl. reflexivity. }
  rewrite Hbody. exact IH.
Qed.

(** With a positive [keep_at_least], once that many versions have gone
    through the whole iteration, no later version of the listing is
    scheduled, however old it is. *)
Theorem nothing_is_scheduled_after_the_gate_closes image_name inputs pre post :
  0 < Inputs.keep_at_least inputs ->
  index (run_loop fnmatch image_name inputs pre) = Inputs.keep_at_least inputs ->
  select_package_versions_to_delete fnmatch image_name inputs (pre ++ post)
  = select_package_versions_to_delete fnmatch image_name inputs pre.
Proof.
  intros Hpos Hidx.
  unfold select_package_versions_to_delete, run_loop in *.
  rewrite loop_from_app.
  rewrite (loop_from_gate_closed image_name inputs _ post Hpos Hidx).
  reflexivity.
Qed.

(** The printed lines play no part in what the loop decides. *)
Lemma loop_body_same_decisions image_name inputs st1 st2 version :
  index st1 = index st2 -> tasks st1 = tasks st2 ->
  index (loop_body fnmatch image_name inputs st1 version)
  = index (loop_body fnmatch image_name inputs st2 version)
  /\ tasks (loop_body fnmatch image_name inputs st1 version)
     = tasks (loop_body fnmatch image_name inputs st2 version).
Proof.
  intros Hi Ht. unfold loop_body. rewrite Hi.
  destruct ((0 <? Inputs.keep_at_least inputs)
            && (Inputs.keep_at_least inputs =? index st2));
    [split; assumption|].
  destruct (getattr_timestamp version (Inputs.timestamp_to_use inputs)) as [t|];
    [|cbn [index tasks]; split; [reflexivity | assumption]].
  destruct (Inputs.cut_off inputs <? t); [split; assumption|].
  destruct (Inputs.untagged_only inputs && _); [split; assumption|].
  destruct (negb _ && _); [split; assumption|].
  cbn [index tasks]. rewrite Ht. split; reflexivity.
Qed.

Lemma loop_from_same_decisions image_name inputs versions : forall st1 st2,
  index st1 = index st2 -> tasks st1 = tasks st2 ->
  tasks (loop_from fnmatch image_name inputs st1 versions)
  = tasks (loop_from fnmatch image_name inputs st2 versions).
Proof.
  induction versions as [|v rest IH]; intros st1 st2 Hi Ht; [exact Ht|].
  cbn [loop_from fold_left].
  destruct (loop_body_same_decisions image_name inputs st1 st2 v Hi Ht).
  apply IH; assumption.
Qed.

(** A version without the configured timestamp is never scheduled and does
    not count towards [keep_at_least]: the tasks of a listing are those of
    the listing without it. *)
Theorem version_without_timestamp_is_passed_over image_name inputs pre
    version post :
  getattr_timestamp version (Inputs.timestamp_to_use inputs) = None ->
  select_package_versions_to_delete fnmatch image_name inputs
    (pre ++ version :: post)
  = select_package_versions_to_delete fnmatch image_name inputs (pre ++ post).
Proof.
  intros Hts.
  unfold select_package_versions_to_delete, run_loop.
  rewrite !loop_from_app. cbn [loop_from fold_left].
  apply loop_from_same_decisions;
    unfold loop_body; rewrite Hts; destruct (_ && _); reflexivity.
Qed.

End RetentionFilterMore.

Lemma scheduled_tasks_are_selected_versions_witness :
  NoDup (map Task.version_id
           (select_package_versions_to_delete wildcard_match "app-a"
              (sample_inputs 2 false [] [] true) mixed_versions)).
Proof.
  apply (proj2 (scheduled_tasks_are_selected_versions wildcard_match "app-a"
                  (sample_inputs 2 false [] [] true) mixed_versions)).
  vm_compute. repeat constructor; intros H; inversion H as [|? ? ? H'];
    repeat (inversion H' as [|? ? ? H'']; clear H'; rename H'' into H');
    discriminate.
Defined.

Lemma without_keep_the_loop_is_a_filter_witness :
  select_package_versions_to_delete wildcard_match "app-a"
    (sample_inputs 0 false [] [] true) mixed_versions
  = [personal_task "app-a" 403; personal_task "app-a" 404;
     personal_task "app-a" 405].
Proof.
  rewrite (without_keep_the_loop_is_a_filter wildcard_match "app-a"
             (sample_inputs 0 false [] [] true) mixed_versions);
    [reflexivity | simpl; lia].
Defined.

Lemma at_most_keep_at_least_tasks_witness :
  Z.of_nat (List.length
              (select_package_versions_to_delete wildcard_match "app-a"
                 (sample_inputs 2 false [] [] true) mixed_versions)) <= 2.
Proof.
  apply (at_most_keep_at_least_tasks wildcard_match "app-a"
           (sample_inputs 2 false [] [] true) mixed_versions).
  simpl. lia.
Defined.

Lemma nothing_is_scheduled_after_the_gate_closes_witness :
  select_package_versions_to_delete wildcard_match "app-a"
    (sample_inputs 2 false [] [] true) (mixed_versions ++ three_old_versions)
  = [personal_task "app-a" 403; personal_task "app-a" 404].
Proof.
  rewrite (nothing_is_scheduled_after_the_gate_closes wildcard_match "app-a"
             (sample_inputs 2 false [] [] true) mixed_versions
             three_old_versions); [reflexivity | simpl; lia | reflexivity].
Defined.

Lemma version_without_timestamp_is_passed_over_witness :
  select_package_versions_to_delete wildcard_match "app-a"
    (sample_inputs 1 false [] [] true)
    ([sample_version 405 (Some 700) ["v1"]]
     ++ sample_version 402 None ["v4"] :: three_old_versions)
  = select_package_versions_to_delete wildcard_match "app-a"
      (sample_inputs 1 false [] [] true)
      ([sample_version 405 (Some 700) ["v1"]] ++ three_old_versions).
Proof.
  apply (version_without_timestamp_is_passed_over wildcard_match "app-a"
           (sample_inputs 1 false [] [] true)
           [sample_version 405 (Some 700) ["v1"]]
           (sample_version 402 None ["v4"]) three_old_versions).
  reflexivity.
Defined.

(** ** Rate limiter: what it never does *)

Section RateLimiterMore.

Variable int_of_str : string -> option Z.

Ltac run_monad :=
  unfold mbind, M_bind, mret, M_ret, raise, exit, hang, datetime_now; cbn beta iota.

Lemma wait_for_rate_limit_no_remaining_header response eligible w :
  Response.headers response !! "x-ratelimit-remaining" = None ->
  wait_for_rate_limit int_of_str response eligible w
  = (Raises (KeyError "x-ratelimit-remaining"), w).
Proof.
  intros H. rewrite wait_for_rate_limit_sequential. unfold header.
  rewrite H. reflexivity.
Qed.

Lemma wait_for_rate_limit_remaining_not_int response eligible w h :
  Response.headers response !! "x-ratelimit-remaining" = Some h ->
  int_of_str h = None ->
  wait_for_rate_limit int_of_str response eligible w = (Raises ValueError, w).
Proof.
  intros H1 H2. rewrite wait_for_rate_limit_sequential. unfold header, int.
  rewrite H1. run_monad. rewrite H2. reflexivity.
Qed.

Lemma wait_for_rate_limit_no_reset response eligible w h :
  Response.headers response !! "x-ratelimit-remaining" = Some h ->
  int_of_str h = Some 0 ->
  (Response.headers response !! "x-ratelimit-reset") ≫= int_of_str = None ->
  exists e, wait_for_rate_limit int_of_str response eligible w = (Raises e, w)
            /\ (e = KeyError "x-ratelimit-reset" \/ e = ValueError).
Proof.
  intros H1 H2 H3. rewrite wait_for_rate_limit_sequential.
  unfold header, int. rewrite H1.
  run_monad. rewrite H2. cbn beta iota. rewrite Z.eqb_refl.
  destruct (Response.headers response !! "x-ratelimit-reset") as [r|].
  - cbn in H3. run_monad. rewrite H3. eexists. split; [reflexivity | auto].
  - eexists. split; [reflexivity | auto].
Qed.

(** The errors of the conversion to local time. *)
Lemma datetime_from_timet_and_us_error localtime timet us e :
  datetime_from_timet_and_us localtime timet us = inl e ->
  e = OSError \/ e = ValueError.
Proof.
  assert (Hlocal : forall t e', local localtime t = inl e' ->
                                e' = OSError \/ e' = ValueError).
  { intros t e'. unfold local. destruct (localtime t); [|intros [= <-]; auto].
    destruct (_ && _); [discriminate | intros [= <-]; auto]. }
  unfold datetime_from_timet_and_us.
  destruct (local localtime timet) as [e1|result_seconds] eqn:H1.
  { intros [= <-]. exact (Hlocal _ _ H1). }
  destruct (local localtime (timet - max_fold_seconds))
    as [e2|probe_seconds] eqn:H2.
  { intros [= <-]. exact (Hlocal _ _ H2). }
  cbv zeta. destruct (_ <? 0); [|discriminate].
  destruct (local localtime (timet + _)) as [e3|s] eqn:H3; [|discriminate].
  intros [= <-]. exact (Hlocal _ _ H3).
Qed.

Lemma datetime_fromtimestamp_error localtime timestamp e :
  datetime_fromtimestamp localtime timestamp = inl e ->
  e = OSError \/ e = ValueError \/ e = OverflowError.
Proof.
  unfold datetime_fromtimestamp. destruct (_ && _).
  - intros H. apply datetime_from_timet_and_us_error in H. tauto.
  - intros [= <-]. auto.
Qed.

(** Every way the rate limiter can go, by the headers of the response. *)
Lemma wait_for_rate_limit_cases response eligible w :
  let result := wait_for_rate_limit int_of_str response eligible w in
  (exists e, result = (Raises e, w)
             /\ forall message, e <> TimeoutException message)
  \/ result = (Returns tt, w)
  \/ (exists delta,
        timedelta_seconds MAX_SLEEP < delta
        /\ result = (Exits 1, snd (print (RateLimitedTerminating delta) w)))
  \/ (exists delta,
        0 < delta <= timedelta_seconds MAX_SLEEP
        /\ result
           = asyncio_sleep delta (snd (print (RateLimitSleeping delta) w)))
  \/ result = asyncio_sleep (timedelta_seconds 1) w.
Proof.
  cbv zeta.
  destruct (Response.headers response !! "x-ratelimit-remaining")
    as [h|] eqn:H1.
  2: { left. rewrite (wait_for_rate_limit_no_remaining_header _ _ _ H1).
       eexists. split; [reflexivity | discriminate]. }
  destruct (int_of_str h) as [remaining|] eqn:H2.
  2: { left. rewrite (wait_for_rate_limit_remaining_not_int _ _ _ _ H1 H2).
       eexists. split; [reflexivity | discriminate]. }
  destruct (Z.eq_dec remaining 0) as [->|Hne].
  - destruct (Response.headers response !! "x-ratelimit-reset")
      as [r|] eqn:H3.
    + destruct (int_of_str r) as [reset|] eqn:H4.
      * rewrite (wait_for_rate_limit_exhausted int_of_str _ eligible w _ _ _
                   H1 H2 H3 H4).
        destruct (datetime_fromtimestamp (localtime w) reset)
          as [e|ratelimit_reset] eqn:Hreset.
        { left. exists e. split; [reflexivity|].
          apply datetime_fromtimestamp_error in Hreset.
          destruct Hreset as [->|[->| ->]]; discriminate. }
        destruct (datetime_at (localtime w) (now w)) as [e|current] eqn:Hnow.
        { left. exists e. split; [reflexivity|].
          apply datetime_from_timet_and_us_error in Hnow.
          destruct Hnow as [->| ->]; discriminate. }
        cbv zeta.
        destruct (Z.ltb_spec (timedelta_seconds MAX_SLEEP)
                    (ratelimit_reset - current)).
        { right. right. left. eexists. split; [eassumption | reflexivity]. }
        destruct (Z.ltb_spec (timedelta_seconds 0) (ratelimit_reset - current)).
        { right. right. right. left. eexists.
          split; [|reflexivity]. change (timedelta_seconds 0) with 0 in *. lia. }
        right. left. reflexivity.
      * destruct (wait_for_rate_limit_no_reset response eligible w h H1 H2)
          as (e & -> & He); [rewrite H3; exact H4|].
        left. exists e. split; [reflexivity|].
        destruct He as [->| ->]; discriminate.
    + destruct (wait_for_rate_limit_no_reset response eligible w h H1 H2)
        as (e & -> & He); [rewrite H3; reflexivity|].
      left. exists e. split; [reflexivity|].
      destruct He as [->| ->]; discriminate.
  - rewrite (wait_for_rate_limit_remaining int_of_str _ eligible w _ _
               H1 H2 Hne).
    destruct eligible; [right; right; right; right | right; left]; reflexivity.
Qed.

(** The rate limiter sleeps at most once per call, for a positive time of
    at most [MAX_SLEEP] seconds; the clock then has moved by exactly that
    time, and otherwise it has not moved.  It leaves the yielded items, the
    three lists and the semaphore alone. *)
Theorem rate_limiter_sleeps_at_most_max_sleep response eligible w :
  let w' := snd (wait_for_rate_limit int_of_str response eligible w) in
  ((slept w' = slept w /\ now w' = now w)
   \/ (exists d, slept w' = slept w ++ [d]
                 /\ 0 < d <= timedelta_seconds MAX_SLEEP
                 /\ now w' = now w + d))
  /\ yielded w' = yielded w
  /\ deleted w' = deleted w
  /\ failed w' = failed w
  /\ needs_github_assistance w' = needs_github_assistance w
  /\ semaphore w' = semaphore w.
Proof.
  cbv zeta.
  destruct (wait_for_rate_limit_cases response eligible w)
    as [(e & -> & _)|[->|[(delta & Hd & ->)|[(delta & Hd & ->)| ->]]]];
    cbn [snd asyncio_sleep print slept now yielded deleted failed
         needs_github_assistance semaphore];
    (split; [|repeat split]).
  - left. split; reflexivity.
  - left. split; reflexivity.
  - left. split; reflexivity.
  - right. exists delta. repeat split; lia.
  - right. exists (timedelta_seconds 1). repeat split; vm_compute; congruence.
Qed.

End RateLimiterMore.

(** ** Paginator: what a listing leaves alone, and a chain that loops *)

Section PaginatorMore.

Variable int_of_str : string -> option Z.

Lemma listing_only_refl w : listing_only w w.
Proof.
  unfold listing_only. repeat split; try lia.
  exists []. rewrite app_nil_r. reflexivity.
Qed.

Lemma listing_only_trans w1 w2 w3 :
  listing_only w1 w2 -> listing_only w2 w3 -> listing_only w1 w3.
Proof.
  intros (Hd1 & Hf1 & Hn1 & Hs1 & Ht1 & more1 & Hy1)
         (Hd2 & Hf2 & Hn2 & Hs2 & Ht2 & more2 & Hy2).
  unfold listing_only. repeat split; try congruence; try lia.
  exists (more1 ++ more2). rewrite Hy2, Hy1, app_assoc. reflexivity.
Qed.

Lemma listing_step_pure {A} (o : Outcome A) : listing_step (fun w => (o, w)).
Proof. intros w. apply listing_only_refl. Qed.

Lemma listing_step_bind {A B} (m : M A) (f : A -> M B) :
  listing_step m -> (forall a, listing_step (f a)) -> listing_step (m ≫= f).
Proof.
  intros Hm Hf w. unfold mbind, M_bind.
  pose proof (Hm w) as H1.
  destruct (m w) as [[a|e|code|why] w1]; cbn [snd] in *; try exact H1.
  eapply listing_only_trans; [exact H1 | apply Hf].
Qed.

Lemma listing_step_yield_all items : listing_step (yield_all items).
Proof.
  induction items as [|item rest IH].
  - apply (listing_step_pure (Returns tt)).
  - cbn [yield_all]. apply listing_step_bind; [|intros _; exact IH].
    intros w. unfold listing_only. cbn. repeat split; try lia.
    exists [item]. reflexivity.
Qed.

Lemma listing_step_wait_for_rate_limit response eligible :
  listing_step (wait_for_rate_limit int_of_str response eligible).
Proof.
  intros w.
  destruct (wait_for_rate_limit_cases int_of_str response eligible w)
    as [(e & -> & _)|[->|[(delta & Hd & ->)|[(delta & Hd & ->)| ->]]]];
    unfold listing_only;
    cbn [snd asyncio_sleep print slept now yielded deleted failed
         needs_github_assistance semaphore];
    repeat split; try lia; exists []; rewrite app_nil_r; reflexivity.
Qed.

Lemma listing_step_pages_loop fuel http_client : forall rels,
  listing_step (pages_loop int_of_str fuel http_client rels).
Proof.
  induction fuel as [|fuel IH]; intros rels; cbn [pages_loop];
    destruct (rels !! "next") as [next_url|];
    try apply (listing_step_pure (Returns tt));
    try apply (listing_step_pure (Hangs OutOfFuel)).
  apply listing_step_bind.
  { unfold await. destruct (AsyncClient.get http_client next_url);
      [apply (listing_step_pure (Returns _))
      | apply (listing_step_pure (Raises _))]. }
  intros response. apply listing_step_bind.
  { unfold raise_for_status. destruct (is_success response);
      [apply (listing_step_pure (Returns tt))
      | apply (listing_step_pure (Raises _))]. }
  intros _. apply listing_step_bind.
  { unfold response_json. destruct (Response.json response);
      [apply (listing_step_pure (Returns _))
      | apply (listing_step_pure (Raises _))]. }
  intros document. apply listing_step_bind.
  { unfold json_iter. destruct (json_items document);
      [apply (listing_step_pure (Returns _))
      | apply (listing_step_pure (Raises _))]. }
  intros items. apply listing_step_bind; [apply listing_step_yield_all|].
  intros _. apply listing_step_bind.
  { unfold header. destruct (Response.headers response !! "link");
      [apply (listing_step_pure (Returns _))
      | apply (listing_step_pure (Raises _))]. }
  intros link. cbv zeta. apply listing_step_bind;
    [apply listing_step_wait_for_rate_limit | intros _; apply IH].
Qed.

(** However a listing goes and ends, the paginator leaves [deleted],
    [failed], [needs_github_assistance] and the semaphore as they were,
    never sets the clock back and never takes back an item it has
    yielded. *)
Theorem paginator_only_yields fuel url http_client w :
  let w' := snd (get_all_pages int_of_str fuel url http_client w) in
  deleted w' = deleted w
  /\ failed w' = failed w
  /\ needs_github_assistance w' = needs_github_assistance w
  /\ semaphore w' = semaphore w
  /\ now w <= now w'
  /\ exists more, yielded w' = yielded w ++ more.
Proof.
  exact (listing_step_pages_loop fuel http_client {[ "next" := url ]} w).
Qed.

Lemma pages_loop_cycle http_client url response items link
    remaining_header remaining :
  AsyncClient.get http_client url = HttpResponse response ->
  is_success response = true ->
  page_items response = Some items ->
  Response.headers response !! "link" = Some link ->
  rels_of_link link !! "next" = Some url ->
  Response.headers response !! "x-ratelimit-remaining" = Some remaining_header ->
  int_of_str remaining_header = Some remaining ->
  remaining <> 0 ->
  forall fuel rels w,
    rels !! "next" = Some url ->
    let result := pages_loop int_of_str fuel http_client rels w in
    fst result = Hangs OutOfFuel
    /\ yielded (snd result) = yielded w ++ concat (replicate fuel items).
Proof.
  intros Hget Hok Hitems Hlink Hnext H1 H2 Hne.
  induction fuel as [|fuel IH]; intros rels w Hrels; cbv zeta.
  - cbn [pages_loop]. rewrite Hrels. cbn. rewrite app_nil_r.
    split; reflexivity.
  - destruct (pages_loop_page int_of_str fuel http_client rels url response
                items link w Hrels Hget Hok Hitems Hlink)
      as (w1 & Hy1 & _ & _ & ->).
    unfold mbind, M_bind.
    rewrite (wait_for_rate_limit_remaining int_of_str response false w1 _ _
               H1 H2 Hne).
    destruct (IH (rels_of_link link) w1 Hnext) as [Hout Hy].
    split; [exact Hout|].
    rewrite Hy, Hy1. cbn [replicate concat]. rewrite app_assoc.
    reflexivity.
Qed.

(** A page whose [next] relation leads back to itself, and which reports
    requests remaining, is fetched and yielded again and again: whatever
    the number of pages allowed, the generator has yielded the items that
    many times and has not ended. *)
Theorem paginator_never_leaves_a_cycle http_client url response items link
    remaining_header remaining w fuel :
  AsyncClient.get http_client url = HttpResponse response ->
  is_success response = true ->
  page_items response = Some items ->
  Response.headers response !! "link" = Some link ->
  rels_of_link link !! "next" = Some url ->
  Response.headers response !! "x-ratelimit-remaining" = Some remaining_header ->
  int_of_str remaining_header = Some remaining ->
  remaining <> 0 ->
  let result := get_all_pages int_of_str fuel url http_client w in
  fst result = Hangs OutOfFuel
  /\ yielded (snd result) = yielded w ++ concat (replicate fuel items).
Proof.
  intros Hget Hok Hitems Hlink Hnext H1 H2 Hne.
  apply (pages_loop_cycle http_client url response items link
           remaining_header remaining Hget Hok Hitems Hlink Hnext H1 H2 Hne).
  apply lookup_singleton_eq.
Qed.

End PaginatorMore.

Lemma paginator_never_leaves_a_cycle_witness :
  let result :=
    get_all_pages int_decimal 4 packages_url looping_client
      (world_at_start sample_start) in
  fst result = Hangs OutOfFuel
  /\ yielded (snd result) = [JNumber 1; JNumber 1; JNumber 1; JNumber 1].
Proof.
  apply (paginator_never_leaves_a_cycle int_decimal looping_client
           packages_url looping_page [JNumber 1]
           (link_value packages_url "next") "4999" 4999
           (world_at_start sample_start) 4);
    try (vm_compute; reflexivity).
  discriminate.
Defined.

(** ** Outcome classification and the deletion call, in full *)

Section DeletionMore.

Variable int_of_str : string -> option Z.

Ltac run_monad :=
  unfold mbind, M_bind, mret, M_ret, raise, exit, hang, datetime_now; cbn beta iota.

(** [post_deletion_output] records the identifier in at most one list and
    at most once.  A response that is not an error goes to [deleted]; an
    error goes to [failed], also when printing its body then raises
    [JSONDecodeError]; a 400 with the assistance message goes to
    [needs_github_assistance]; and the only way nothing is recorded is a 400
    whose message cannot be read, which raises with the world untouched. *)
Theorem outcome_is_recorded_at_most_once response image_name version_id w :
  let ident := image_name_with_tag image_name version_id in
  let result := post_deletion_output response image_name version_id w in
  let w' := snd result in
  (is_error response = false /\ fst result = Returns tt
   /\ deleted w' = deleted w ++ [ident] /\ failed w' = failed w
   /\ needs_github_assistance w' = needs_github_assistance w)
  \/ (is_error response = true
      /\ (fst result = Returns tt \/ fst result = Raises JSONDecodeError)
      /\ deleted w' = deleted w /\ failed w' = failed w ++ [ident]
      /\ needs_github_assistance w' = needs_github_assistance w)
  \/ (Response.status_code response = 400 /\ fst result = Returns tt
      /\ deleted w' = deleted w /\ failed w' = failed w
      /\ needs_github_assistance w' = needs_github_assistance w ++ [ident])
  \/ (Response.status_code response = 400 /\ w' = w
      /\ exists e, fst result = Raises e).
Proof.
  cbv zeta. unfold post_deletion_output, image_name_with_tag. cbv zeta.
  destruct (is_error response) eqn:He.
  2: { left. repeat split. }
  assert (Hfail : forall w0 : World, w0 = w ->
    let r := (failed_append (image_name +:+ ":" +:+ str version_id);;
              _ ← response_json response;
              print (CouldNotDelete (image_name +:+ ":" +:+ str version_id)
                       (Response.status_code response))) w0 in
    (fst r = Returns tt \/ fst r = Raises JSONDecodeError)
    /\ deleted (snd r) = deleted w
    /\ failed (snd r) = failed w ++ [image_name +:+ ":" +:+ str version_id]
    /\ needs_github_assistance (snd r) = needs_github_assistance w).
  { intros w0 ->. cbv zeta. unfold response_json, failed_append. run_monad.
    destruct (Response.json response); cbn; repeat split; auto. }
  destruct (Z.eqb_spec (Response.status_code response) 400) as [Hs|Hs].
  2: { right. left. split; [reflexivity|]. apply (Hfail w). reflexivity. }
  destruct (Response.json response) as [document|] eqn:Hj.
  2: { right. right. right.
       assert (Hrj : response_json response = raise JSONDecodeError)
         by (unfold response_json; rewrite Hj; reflexivity).
       rewrite Hrj. run_monad. cbn.
       split; [exact Hs|]. split; [reflexivity | eauto]. }
  assert (Hrj : response_json response = mret document)
    by (unfold response_json; rewrite Hj; reflexivity).
  rewrite Hrj in Hfail |- *. run_monad.
  destruct (json_getitem document "message" w) as [[message|e|code|why] w1]
    eqn:Hm.
  - assert (w1 = w) as ->.
    { unfold json_getitem in Hm. destruct document; try discriminate Hm.
      destruct (List.find _ _); [|discriminate Hm].
      unfold mret, M_ret in Hm. congruence. }
    destruct (json_eq_str message GITHUB_ASSISTANCE_MSG).
    + right. right. left. cbn. repeat split. exact Hs.
    + right. left. split; [reflexivity|]. apply (Hfail w). reflexivity.
  - right. right. right. cbn [fst snd].
    assert (w1 = w) as ->.
    { unfold json_getitem in Hm. destruct document;
        try (unfold raise in Hm; congruence).
      destruct (List.find _ _); unfold mret, M_ret, raise in Hm; congruence. }
    split; [exact Hs|]. split; [reflexivity | eauto].
  - exfalso. unfold json_getitem in Hm. destruct document;
      try (unfold raise in Hm; discriminate Hm).
    destruct (List.find _ _); unfold mret, M_ret, raise in Hm; discriminate Hm.
  - exfalso. unfold json_getitem in Hm. destruct document;
      try (unfold raise in Hm; discriminate Hm).
    destruct (List.find _ _); unfold mret, M_ret, raise in Hm; discriminate Hm.
Qed.

(** The rate limiter does not look at the semaphore. *)
Lemma wait_for_rate_limit_set_semaphore response eligible value w :
  wait_for_rate_limit int_of_str response eligible (set_semaphore value w)
  = (fst (wait_for_rate_limit int_of_str response eligible w),
     set_semaphore value
       (snd (wait_for_rate_limit int_of_str response eligible w))).
Proof.
  rewrite !wait_for_rate_limit_sequential.
  unfold header, int, fromtimestamp, datetime_now, call. run_monad.
  destruct (Response.headers response !! "x-ratelimit-remaining");
    [|reflexivity].
  destruct (int_of_str _); [|reflexivity].
  destruct (_ =? 0).
  - destruct (Response.headers response !! "x-ratelimit-reset");
      [|reflexivity].
    destruct (int_of_str _); [|reflexivity].
    cbn [now localtime set_semaphore].
    destruct (datetime_fromtimestamp _ _); [reflexivity|]. run_monad.
    destruct (datetime_at _ _); [reflexivity|]. run_monad.
    destruct (_ <? _); [reflexivity|].
    destruct (_ <? _); reflexivity.
  - destruct eligible; reflexivity.
Qed.

(** A deletion is recorded only after the rate limiter has returned: when
    the rate limiter raises on the answer to the delete request (a
    rate-limit header missing or not an integer, a reset that
    [datetime.fromtimestamp] rejects) or ends the process, the
    call ends the same way, none of the three lists has changed, whatever
    the status of the answer was, and the permit is back. *)
Theorem deletion_is_recorded_only_after_the_rate_limiter url http_client
    image_name version_id w response :
  AsyncClient.delete http_client url = HttpResponse response ->
  0 < semaphore w ->
  fst (wait_for_rate_limit int_of_str response true w) <> Returns tt ->
  let result :=
    _delete_package_versions int_of_str url http_client image_name version_id w in
  fst result = fst (wait_for_rate_limit int_of_str response true w)
  /\ deleted (snd result) = deleted w
  /\ failed (snd result) = failed w
  /\ needs_github_assistance (snd result) = needs_github_assistance w
  /\ semaphore (snd result) = semaphore w.
Proof.
  intros Hd Hs Hwait. rewrite _delete_package_versions_sequential.
  unfold async_with_semaphore, semaphore_acquire, release_after, try_except,
    await.
  rewrite Hd. run_monad.
  apply Z.ltb_lt in Hs. rewrite Hs.
  rewrite wait_for_rate_limit_set_semaphore.
  destruct (wait_for_rate_limit_cases int_of_str response true w)
    as [(e & Hr & He)|[Hr|[(delta & _ & Hr)|[(delta & _ & Hr)|Hr]]]];
    rewrite Hr in Hwait |- *; cbn [fst snd] in Hwait |- *;
    try (exfalso; apply Hwait; reflexivity).
  - destruct e; try (exfalso; eapply He; reflexivity);
      cbn; repeat split; lia.
  - cbn. repeat split; lia.
Qed.

(** A deletion that succeeds while requests remain: the call pauses for one
    second, records the identifier in [deleted] and nowhere else, prints the
    line, returns, and the permit is back. *)
Theorem successful_deletion_is_recorded_after_a_pause url http_client
    image_name version_id w response remaining_header remaining :
  AsyncClient.delete http_client url = HttpResponse response ->
  0 < semaphore w ->
  is_error response = false ->
  Response.headers response !! "x-ratelimit-remaining" = Some remaining_header ->
  int_of_str remaining_header = Some remaining ->
  remaining <> 0 ->
  let ident := image_name_with_tag image_name version_id in
  let result :=
    _delete_package_versions int_of_str url http_client image_name version_id w in
  fst result = Returns tt
  /\ slept (snd result) = slept w ++ [timedelta_seconds 1]
  /\ stdout (snd result) = stdout w ++ [DeletedOldImage ident]
  /\ deleted (snd result) = deleted w ++ [ident]
  /\ failed (snd result) = failed w
  /\ needs_github_assistance (snd result) = needs_github_assistance w
  /\ semaphore (snd result) = semaphore w.
Proof.
  intros Hd Hs He H1 H2 Hne. rewrite _delete_package_versions_sequential.
  unfold async_with_semaphore, semaphore_acquire, release_after, try_except,
    await.
  rewrite Hd. run_monad.
  apply Z.ltb_lt in Hs. rewrite Hs.
  rewrite (wait_for_rate_limit_remaining int_of_str response true _ _ _
             H1 H2 Hne).
  unfold post_deletion_output. cbv zeta. rewrite He.
  unfold asyncio_sleep, deleted_append, print, semaphore_release,
    set_semaphore. run_monad.
  cbn [fst snd now stdout slept yielded deleted failed
       needs_github_assistance semaphore].
  unfold image_name_with_tag. repeat split. lia.
Qed.

End DeletionMore.

Lemma post_deletion_output_other_status_witness :
  let result :=
    post_deletion_output forbidden_not_json "app-a" 301
      (world_at_start sample_start) in
  deleted (snd result) = []
  /\ failed (snd result) = ["app-a:301"]
  /\ needs_github_assistance (snd result) = [].
Proof.
  apply (post_deletion_output_other_status forbidden_not_json "app-a" 301
           (world_at_start sample_start)); [reflexivity | discriminate].
Defined.

Lemma deletion_is_recorded_only_after_the_rate_limiter_witness :
  let w := world_at_start sample_start in
  let result :=
    _delete_package_versions int_decimal version_url headerless_client
      "app-a" 301 w in
  fst result = Raises (KeyError "x-ratelimit-remaining")
  /\ deleted (snd result) = []
  /\ failed (snd result) = []
  /\ needs_github_assistance (snd result) = []
  /\ semaphore (snd result) = 50.
Proof.
  apply (deletion_is_recorded_only_after_the_rate_limiter int_decimal
           version_url headerless_client "app-a" 301
           (world_at_start sample_start) deleted_without_headers);
    [reflexivity | reflexivity | discriminate].
Defined.

Lemma successful_deletion_is_recorded_after_a_pause_witness :
  let w := world_at_start sample_start in
  let result :=
    _delete_package_versions int_decimal version_url deleting_client
      "app-a" 301 w in
  fst result = Returns tt
  /\ slept (snd result) = [timedelta_seconds 1]
  /\ stdout (snd result) = [DeletedOldImage "app-a:301"]
  /\ deleted (snd result) = ["app-a:301"]
  /\ failed (snd result) = []
  /\ needs_github_assistance (snd result) = []
  /\ semaphore (snd result) = 50.
Proof.
  apply (successful_deletion_is_recorded_after_a_pause int_decimal
           version_url deleting_client "app-a" 301
           (world_at_start sample_start)
           (sample_response 204 [("x-ratelimit-remaining", "4999")] None)
           "4999" 4999);
    [reflexivity | reflexivity | reflexivity | reflexivity | reflexivity
    | discriminate].
Defined.

(** ** [encode_image_name] *)

Lemma hex_digits_are_safe c :
  is_always_safe (hex_digit (nat_of_ascii c / 16)) = true
  /\ is_always_safe (hex_digit (nat_of_ascii c mod 16)) = true.
Proof.
  destruct c as [[] [] [] [] [] [] [] []]; vm_compute; split; reflexivity.
Qed.

Lemma quote_byte_chars c x :
  In x (quote_byte c) -> is_always_safe x = true \/ x = "%"%char.
Proof.
  unfold quote_byte. destruct (is_always_safe c) eqn:Hc.
  - intros [<-|[]]. left. exact Hc.
  - destruct (hex_digits_are_safe c) as [H1 H2].
    intros [<-|[<-|[<-|[]]]]; [right; reflexivity | left; exact H1
                              | left; exact H2].
Qed.

Lemma unquote_quote_byte c rest :
  unquote_to_bytes (quote_byte c ++ rest) = c :: unquote_to_bytes rest.
Proof. destruct c as [[] [] [] [] [] [] [] []]; reflexivity. Qed.

Lemma unquote_quote bs : unquote_to_bytes (quote_from_bytes bs) = bs.
Proof.
  induction bs as [|c rest IH]; [reflexivity|].
  unfold quote_from_bytes in *. cbn [flat_map].
  rewrite unquote_quote_byte, IH. reflexivity.
Qed.

Lemma quote_from_bytes_safe bs :
  Forall (fun c => is_always_safe c = true) bs -> quote_from_bytes bs = bs.
Proof.
  induction 1 as [|c rest Hc _ IH]; [reflexivity|].
  unfold quote_from_bytes in *. cbn [flat_map]. unfold quote_byte at 1.
  rewrite Hc, IH. reflexivity.
Qed.

(** The encoded image name is made of letters, digits, [_.-~] and the
    percent sign only: it holds no slash, question mark, hash or space and
    so stands for one path segment of the URL. *)
Theorem encoded_image_name_is_one_path_segment name c :
  In c (list_ascii_of_string (encode_image_name name)) ->
  (is_always_safe c = true \/ c = "%"%char)
  /\ c <> "/"%char /\ c <> "?"%char /\ c <> "#"%char /\ c <> " "%char.
Proof.
  unfold encode_image_name. rewrite list_ascii_of_string_of_list_ascii.
  unfold quote_from_bytes. rewrite in_flat_map.
  intros (b & _ & Hc). apply quote_byte_chars in Hc.
  split; [exact Hc|].
  repeat split; intros ->; destruct Hc as [Hc|Hc]; discriminate Hc.
Qed.

(** Two image names are encoded alike exactly when they are alike once
    stripped: the encoding loses nothing but the surrounding white space. *)
Theorem encode_image_name_injective_up_to_strip name1 name2 :
  encode_image_name name1 = encode_image_name name2
  <-> strip name1 = strip name2.
Proof.
  split; [|intros H; unfold encode_image_name; rewrite H; reflexivity].
  unfold encode_image_name. intros H.
  apply (f_equal list_ascii_of_string) in H.
  rewrite !list_ascii_of_string_of_list_ascii in H.
  apply (f_equal unquote_to_bytes) in H. rewrite !unquote_quote in H.
  apply (f_equal string_of_list_ascii) in H.
  rewrite !string_of_list_ascii_of_string in H. exact H.
Qed.

(** ** [str.strip] and [str.split] *)

Section StripFacts.

Variable patterns : list (list ascii).
Hypothesis patterns_nonempty : Forall (fun p => p <> []) patterns.

Lemma strip_prefix_spec (p s s' : list ascii) :
  strip_prefix p s = Some s' <-> s = p ++ s'.
Proof.
  revert s. induction p as [|c p IH]; intros s; cbn [strip_prefix app].
  - split; [intros [= ->]; reflexivity | intros ->; reflexivity].
  - destruct s as [|d s]; [split; [discriminate | discriminate]|].
    destruct (Ascii.eqb_spec c d) as [->|Hne].
    + rewrite IH. split; [intros ->; reflexivity | intros [= ->]; reflexivity].
    + split; [discriminate | intros [= -> _]; contradiction].
Qed.

Lemma first_stripped_some s s' :
  first_stripped patterns s = Some s' ->
  exists p, In p patterns /\ s = p ++ s'.
Proof.
  clear patterns_nonempty.
  induction patterns as [|p rest IH]; cbn [first_stripped]; [discriminate|].
  destruct (strip_prefix p s) as [r|] eqn:Hp.
  - intros [= ->]. exists p. split; [left; reflexivity|].
    apply strip_prefix_spec. exact Hp.
  - intros H. destruct (IH H) as (q & Hq & Hs).
    exists q. split; [right; exact Hq | exact Hs].
Qed.

Lemma first_stripped_found p s s' :
  In p patterns -> s = p ++ s' -> first_stripped patterns s <> None.
Proof.
  clear patterns_nonempty.
  induction patterns as [|q rest IH]; cbn [first_stripped In]; [tauto|].
  intros [->|Hin] Hs.
  - apply strip_prefix_spec in Hs. rewrite Hs. discriminate.
  - destruct (strip_prefix q s); [discriminate | apply IH; assumption].
Qed.

(** A string that starts with no pattern has no prefix that does. *)
Lemma first_stripped_prefix u x :
  first_stripped patterns (u ++ x) = None -> first_stripped patterns u = None.
Proof.
  intros H. destruct (first_stripped patterns u) as [r|] eqn:Hu;
    [|reflexivity].
  destruct (first_stripped_some u r Hu) as (p & Hp & ->).
  exfalso. apply (first_stripped_found p ((p ++ r) ++ x) (r ++ x) Hp);
    [rewrite app_assoc; reflexivity | exact H].
Qed.

Lemma first_stripped_shorter s s' :
  first_stripped patterns s = Some s' ->
  (List.length s' < List.length s)%nat.
Proof.
  intros H. destruct (first_stripped_some s s' H) as (p & Hp & ->).
  rewrite Forall_forall in patterns_nonempty.
  specialize (patterns_nonempty p). rewrite list_elem_of_In in patterns_nonempty.
  specialize (patterns_nonempty Hp).
  rewrite List.length_app. destruct p; [contradiction | simpl; lia].
Qed.

Lemma lstrip_with_suffix fuel : forall s,
  exists dropped, s = dropped ++ lstrip_with patterns fuel s.
Proof.
  induction fuel as [|fuel IH]; intros s; cbn [lstrip_with].
  - exists []. reflexivity.
  - destruct (first_stripped patterns s) as [s'|] eqn:H;
      [|exists []; reflexivity].
    destruct (first_stripped_some s s' H) as (p & _ & ->).
    destruct (IH s') as (dropped & Hd).
    exists (p ++ dropped). rewrite <- app_assoc, <- Hd. reflexivity.
Qed.

Lemma lstrip_with_done fuel : forall s,
  (List.length s <= fuel)%nat ->
  first_stripped patterns (lstrip_with patterns fuel s) = None.
Proof.
  induction fuel as [|fuel IH]; intros s Hlen; cbn [lstrip_with].
  - destruct s; [|simpl in Hlen; lia].
    destruct (first_stripped patterns []) as [r|] eqn:H; [|reflexivity].
    apply first_stripped_shorter in H. simpl in H. lia.
  - destruct (first_stripped patterns s) as [s'|] eqn:H; [|exact H].
    apply IH. apply first_stripped_shorter in H. lia.
Qed.

Lemma lstrip_with_id fuel s :
  first_stripped patterns s = None -> lstrip_with patterns fuel s = s.
Proof. intros H. destruct fuel; cbn [lstrip_with]; rewrite ?H; reflexivity. Qed.

End StripFacts.

Lemma whitespace_encodings_nonempty :
  Forall (fun p => p <> []) whitespace_encodings.
Proof. vm_compute. repeat constructor; discriminate. Qed.

Lemma reversed_whitespace_encodings_nonempty :
  Forall (fun p => p <> []) (map (@rev ascii) whitespace_encodings).
Proof. vm_compute. repeat constructor; discriminate. Qed.

(** What [strip] returns has no white space at either end. *)
Lemma rstrip_lstrip_ends (s : list ascii) :
  first_stripped whitespace_encodings (rstrip (lstrip s)) = None
  /\ first_stripped (map (@rev ascii) whitespace_encodings)
       (rev (rstrip (lstrip s))) = None.
Proof.
  split.
  - unfold rstrip.
    destruct (lstrip_with_suffix (map (@rev ascii) whitespace_encodings)
                (List.length (lstrip s)) (rev (lstrip s))) as (dropped & Hd).
    apply (first_stripped_prefix whitespace_encodings _ (rev dropped)).
    rewrite <- rev_app_distr, <- Hd, rev_involutive.
    unfold lstrip.
    apply (lstrip_with_done _ whitespace_encodings_nonempty). lia.
  - unfold rstrip. rewrite rev_involutive.
    apply (lstrip_with_done _ reversed_whitespace_encodings_nonempty).
    rewrite length_rev. lia.
Qed.

Lemma rstrip_lstrip_fixed (s : list ascii) :
  first_stripped whitespace_encodings s = None ->
  first_stripped (map (@rev ascii) whitespace_encodings) (rev s) = None ->
  rstrip (lstrip s) = s.
Proof.
  intros Hl Hr. unfold lstrip. rewrite (lstrip_with_id _ _ _ Hl).
  unfold rstrip. rewrite (lstrip_with_id _ _ _ Hr). apply rev_involutive.
Qed.

Lemma strip_idempotent (s : string) : strip (strip s) = strip s.
Proof.
  unfold strip. rewrite list_ascii_of_string_of_list_ascii.
  destruct (rstrip_lstrip_ends (list_ascii_of_string s)) as [Hl Hr].
  rewrite (rstrip_lstrip_fixed _ Hl Hr). reflexivity.
Qed.

(** [strip] keeps a run of consecutive characters of its argument. *)
Lemma rstrip_lstrip_infix (s : list ascii) :
  exists before after, s = before ++ rstrip (lstrip s) ++ after.
Proof.
  destruct (lstrip_with_suffix whitespace_encodings (List.length s) s)
    as (before & Hb).
  fold (lstrip s) in Hb.
  destruct (lstrip_with_suffix (map (@rev ascii) whitespace_encodings)
              (List.length (lstrip s)) (rev (lstrip s))) as (dropped & Hd).
  exists before, (rev dropped).
  unfold rstrip at 1. rewrite <- rev_app_distr, <- Hd, rev_involutive.
  exact Hb.
Qed.

Lemma safe_byte_starts_no_white_space c rest :
  is_always_safe c = true ->
  first_stripped whitespace_encodings (c :: rest) = None
  /\ first_stripped (map (@rev ascii) whitespace_encodings) (c :: rest) = None.
Proof.
  destruct c as [[] [] [] [] [] [] [] []]; intros H;
    try discriminate H; split; reflexivity.
Qed.

Lemma rstrip_lstrip_safe (s : list ascii) :
  Forall (fun c => is_always_safe c = true) s -> rstrip (lstrip s) = s.
Proof.
  intros Hs. apply rstrip_lstrip_fixed.
  - destruct Hs as [|c rest Hc _]; [reflexivity|].
    exact (proj1 (safe_byte_starts_no_white_space c rest Hc)).
  - apply Forall_rev in Hs.
    destruct Hs as [|c rest Hc _]; [reflexivity|].
    exact (proj2 (safe_byte_starts_no_white_space c rest Hc)).
Qed.

(** An image name made of letters, digits and [_.-~] only is encoded as
    itself. *)
Theorem encode_image_name_keeps_safe_names name :
  Forall (fun c => is_always_safe c = true) (list_ascii_of_string name) ->
  encode_image_name name = name.
Proof.
  intros Hs. unfold encode_image_name, strip.
  rewrite list_ascii_of_string_of_list_ascii, (rstrip_lstrip_safe _ Hs),
    (quote_from_bytes_safe _ Hs).
  apply string_of_list_ascii_of_string.
Qed.

Lemma encode_image_name_keeps_safe_names_witness :
  encode_image_name "app-a_1.0~rc" = "app-a_1.0~rc".
Proof.
  apply encode_image_name_keeps_safe_names.
  cbn [list_ascii_of_string]. repeat (constructor; [reflexivity|]).
  constructor.
Defined.

(** ** [Inputs.parse_comma_separate_string_as_list] *)

Lemma split_on_length sep s :
  List.length (split_on sep s)
  = S (List.length (List.filter (Ascii.eqb sep) s)).
Proof.
  induction s as [|c rest IH]; [reflexivity|].
  cbn [split_on List.filter]. rewrite (Ascii.eqb_sym sep c).
  destruct (Ascii.eqb c sep); [simpl; rewrite IH; reflexivity|].
  destruct (split_on sep rest); [discriminate IH | exact IH].
Qed.

Lemma split_on_no_sep sep s piece :
  In piece (split_on sep s) -> ~ In sep piece.
Proof.
  revert piece. induction s as [|c rest IH]; intros piece; cbn [split_on].
  - intros [<-|[]] [].
  - destruct (Ascii.eqb_spec c sep) as [->|Hne].
    + intros [<-|Hin]; [intros [] | apply IH; exact Hin].
    + destruct (split_on sep rest) as [|first pieces].
      * intros [<-|[]] [H|[]]. apply Hne. exact H.
      * intros [<-|Hin].
        -- intros [H|H]; [apply Hne; exact H|].
           apply (IH first); [left; reflexivity | exact H].
        -- apply IH. right. exact Hin.
Qed.

Lemma list_ascii_of_string_append (a b : string) :
  list_ascii_of_string (a +:+ b)
  = list_ascii_of_string a ++ list_ascii_of_string b.
Proof.
  induction a as [|c a IH]; [reflexivity|]. simpl. rewrite IH. reflexivity.
Qed.

Lemma split_on_piece sep piece rest :
  ~ In sep piece ->
  split_on sep (piece ++ sep :: rest) = piece :: split_on sep rest.
Proof.
  induction piece as [|c piece IH]; intros Hno; cbn [app split_on].
  - rewrite Ascii.eqb_refl. reflexivity.
  - destruct (Ascii.eqb_spec c sep) as [->|Hne];
      [exfalso; apply Hno; left; reflexivity|].
    rewrite IH; [reflexivity|]. intros H. apply Hno. right. exact H.
Qed.

Lemma split_on_last sep piece :
  ~ In sep piece -> split_on sep piece = [piece].
Proof.
  induction piece as [|c piece IH]; intros Hno; cbn [split_on];
    [reflexivity|].
  destruct (Ascii.eqb_spec c sep) as [->|Hne];
    [exfalso; apply Hno; left; reflexivity|].
  rewrite IH; [reflexivity|]. intros H. apply Hno. right. exact H.
Qed.

(** The empty input gives the empty list, and any other input gives one
    entry more than it has commas: never an empty list, and an empty entry
    for every comma with nothing but white space next to it. *)
Theorem parsed_list_has_one_entry_per_comma_plus_one v :
  parse_comma_separate_string_as_list EmptyString = []
  /\ (v <> EmptyString ->
      List.length (parse_comma_separate_string_as_list v)
      = S (List.length
             (List.filter (Ascii.eqb ","%char) (list_ascii_of_string v)))).
Proof.
  split; [reflexivity|]. intros Hv.
  destruct v as [|c v]; [contradiction|].
  unfold parse_comma_separate_string_as_list.
  rewrite length_map. apply split_on_length.
Qed.

(** Every entry of the parsed list is stripped (stripping it again changes
    nothing) and holds no comma. *)
Theorem parsed_entries_are_stripped_and_comma_free v entry :
  In entry (parse_comma_separate_string_as_list v) ->
  strip entry = entry /\ ~ In ","%char (list_ascii_of_string entry).
Proof.
  destruct v as [|c v]; [intros []|].
  unfold parse_comma_separate_string_as_list. rewrite in_map_iff.
  intros (piece & <- & Hpiece). split; [apply strip_idempotent|].
  apply split_on_no_sep in Hpiece.
  unfold strip. rewrite !list_ascii_of_string_of_list_ascii.
  destruct (rstrip_lstrip_infix piece) as (before & after & Hinfix).
  intros Hin. apply Hpiece. rewrite Hinfix.
  apply in_or_app. right. apply in_or_app. left. exact Hin.
Qed.

Lemma concat_cons (sep x y : string) (l : list string) :
  String.concat sep (x :: y :: l) = x +:+ sep +:+ String.concat sep (y :: l).
Proof. reflexivity. Qed.

Lemma split_on_concat (items : list string) :
  items <> [] ->
  Forall (fun e => ~ In ","%char (list_ascii_of_string e)) items ->
  split_on ","%char (list_ascii_of_string (String.concat "," items))
  = map list_ascii_of_string items.
Proof.
  intros Hne Hall. induction Hall as [|e rest He Hrest IH]; [contradiction|].
  destruct rest as [|e2 rest].
  - cbn [String.concat map]. apply split_on_last. exact He.
  - rewrite concat_cons, !list_ascii_of_string_append.
    cbn [list_ascii_of_string app].
    rewrite (split_on_piece _ _ _ He), IH; [reflexivity | discriminate].
Qed.

(** Parsing gives back a list that was joined with commas, as [main] joins
    its three lists, provided the entries are stripped and hold no comma
    and the joined text is not empty. *)
Theorem parse_after_join_gives_the_list_back (items : list string) :
  Forall (fun e => strip e = e /\ ~ In ","%char (list_ascii_of_string e))
         items ->
  String.concat "," items <> EmptyString ->
  parse_comma_separate_string_as_list (String.concat "," items) = items.
Proof.
  intros Hall Hjoin.
  assert (Hne : items <> []) by (intros ->; apply Hjoin; reflexivity).
  unfold parse_comma_separate_string_as_list.
  destruct (String.concat "," items) as [|c joined] eqn:Hj; [contradiction|].
  rewrite <- Hj, split_on_concat; [|exact Hne|].
  - rewrite map_map. rewrite <- (map_id items) at 2.
    apply map_ext_in. intros e He.
    rewrite string_of_list_ascii_of_string.
    rewrite Forall_forall in Hall. apply Hall, list_elem_of_In, He.
  - eapply Forall_impl; [exact Hall|]. intros e [_ H]. exact H.
Qed.

Lemma parsed_list_has_one_entry_per_comma_plus_one_witness :
  List.length (parse_comma_separate_string_as_list "latest, ,v1.*") = 3%nat.
Proof.
  apply (proj2 (parsed_list_has_one_entry_per_comma_plus_one
                  "latest, ,v1.*")).
  discriminate.
Defined.

Lemma parsed_entries_are_stripped_and_comma_free_witness :
  strip "v1.*" = "v1.*" /\ ~ In ","%char (list_ascii_of_string "v1.*").
Proof.
  apply (parsed_entries_are_stripped_and_comma_free "latest , v1.* " "v1.*").
  vm_compute. right. left. reflexivity.
Defined.

Lemma parse_after_join_gives_the_list_back_witness :
  parse_comma_separate_string_as_list
    (String.concat "," ["app-a:301"; "app-a:302"])
  = ["app-a:301"; "app-a:302"].
Proof.
  apply parse_after_join_gives_the_list_back.
  - repeat constructor; try (vm_compute; reflexivity);
      vm_compute; intuition discriminate.
  - discriminate.
Defined.

(** ** The [link] header *)

Lemma span_stops (class : ascii -> bool) xs y rest :
  Forall (fun c => class c = true) xs ->
  class y = false ->
  span class (xs ++ y :: rest) = (xs, y :: rest).
Proof.
  intros Hxs Hy. induction Hxs as [|c xs Hc _ IH]; cbn [app span].
  - rewrite Hy. reflexivity.
  - rewrite Hc, IH. reflexivity.
Qed.

Lemma link_value_chars url rel rest :
  list_ascii_of_string (link_value url rel) ++ rest
  = "<"%char :: list_ascii_of_string url
    ++ (list_ascii_of_string ">; rel=" ++ [double_quote])
    ++ list_ascii_of_string rel ++ double_quote :: rest.
Proof.
  unfold link_value, quoted.
  rewrite !list_ascii_of_string_append. cbn [list_ascii_of_string app].
  rewrite list_ascii_of_string_append. cbn [list_ascii_of_string app].
  rewrite <- !app_assoc. cbn [app]. rewrite <- !app_assoc. reflexivity.
Qed.

(** The pattern matches a well-formed link that starts the text, and
    the match ends where the link ends. *)
Lemma rel_regex_match_link url rel rest :
  well_formed_link (url, rel) ->
  rel_regex_match (list_ascii_of_string (link_value url rel) ++ rest)
  = Some (url, rel, rest).
Proof.
  intros (Hurl & Hrel & Hne). cbn [fst snd] in *.
  rewrite link_value_chars. unfold rel_regex_match.
  change (char_code "<" =? 60) with true. cbv iota.
  set (pattern := list_ascii_of_string ">; rel=" ++ [double_quote]).
  change (pattern ++ list_ascii_of_string rel ++ double_quote :: rest)
    with (">"%char
          :: (list_ascii_of_string "; rel=" ++ [double_quote])
             ++ list_ascii_of_string rel ++ double_quote :: rest).
  rewrite (span_stops is_not_angle _ ">"%char _ Hurl eq_refl).
  change (">"%char
          :: (list_ascii_of_string "; rel=" ++ [double_quote])
             ++ list_ascii_of_string rel ++ double_quote :: rest)
    with (pattern ++ list_ascii_of_string rel ++ double_quote :: rest).
  rewrite (proj2 (strip_prefix_spec pattern _ _) eq_refl).
  rewrite (span_stops is_word_char _ double_quote _ Hrel eq_refl).
  destruct (list_ascii_of_string rel) as [|c cs] eqn:Hchars.
  - exfalso. apply Hne.
    rewrite <- (string_of_list_ascii_of_string rel), Hchars. reflexivity.
  - rewrite Ascii.eqb_refl, <- Hchars, !string_of_list_ascii_of_string.
    reflexivity.
Qed.

Lemma findall_from_link fuel url rel rest :
  well_formed_link (url, rel) ->
  findall_from (S fuel) (list_ascii_of_string (link_value url rel) ++ rest)
  = (url, rel) :: findall_from fuel rest.
Proof.
  intros Hwf. cbn [findall_from].
  rewrite (rel_regex_match_link url rel rest Hwf).
  rewrite link_value_chars. reflexivity.
Qed.

Lemma link_value_length url rel :
  (1 <= List.length (list_ascii_of_string (link_value url rel)))%nat.
Proof.
  unfold link_value. rewrite list_ascii_of_string_append. simpl. lia.
Qed.

Lemma link_header_cons link link2 rest :
  list_ascii_of_string (link_header (link :: link2 :: rest))
  = list_ascii_of_string (link_value link.1 link.2)
    ++ ","%char :: " "%char
       :: list_ascii_of_string (link_header (link2 :: rest)).
Proof.
  unfold link_header. cbn [map].
  rewrite concat_cons, !list_ascii_of_string_append. reflexivity.
Qed.

Lemma findall_from_links links : forall fuel,
  Forall well_formed_link links ->
  (List.length (list_ascii_of_string (link_header links)) <= fuel)%nat ->
  findall_from fuel (list_ascii_of_string (link_header links)) = links.
Proof.
  induction links as [|[url rel] rest IH]; intros fuel Hwf Hfuel.
  - destruct fuel; reflexivity.
  - apply Forall_cons_iff in Hwf as [Hlink Hrest].
    pose proof (link_value_length url rel) as Hlen.
    destruct rest as [|link2 rest].
    + unfold link_header in *. cbn [map String.concat fst snd] in *.
      destruct fuel as [|fuel]; [lia|].
      rewrite <- (app_nil_r (list_ascii_of_string _)).
      rewrite (findall_from_link fuel url rel [] Hlink).
      destruct fuel; reflexivity.
    + rewrite link_header_cons in *. cbn [fst snd] in *.
      rewrite List.length_app in Hfuel. cbn [List.length] in Hfuel.
      destruct fuel as [|[|[|fuel]]]; try lia.
      rewrite (findall_from_link _ url rel _ Hlink).
      cbn [findall_from]. unfold rel_regex_match.
      change (char_code "," =? 60) with false.
      change (char_code " " =? 60) with false. cbv iota.
      rewrite (IH fuel Hrest); [reflexivity | lia].
Qed.

Lemma fold_insert_lookup (links : list (string * string)) rel :
  forall rels : gmap string string,
  fold_left (fun (rels : gmap string string) (pair : string * string) =>
               <[pair.2 := pair.1]> rels) links rels !! rel
  = match last (List.filter (fun link => String.eqb link.2 rel) links) with
    | Some link => Some link.1
    | None => rels !! rel
    end.
Proof.
  induction links as [|[url r] rest IH]; intros rels; [reflexivity|].
  cbn [fold_left List.filter fst snd]. rewrite IH.
  destruct (String.eqb_spec r rel) as [->|Hne].
  - rewrite last_cons.
    destruct (last (List.filter _ rest)); [reflexivity|].
    cbn [fst]. apply lookup_insert_eq.
  - destruct (last _); [reflexivity|]. apply lookup_insert_ne. exact Hne.
Qed.

(** The parser reads a header of well-formed links back in full and in
    order, and the relation map gives for each relation the URL of the last
    link that carries it. *)
Theorem link_header_is_read_back links rel :
  Forall well_formed_link links ->
  rel_regex_findall (link_header links) = links
  /\ rels_of_link (link_header links) !! rel
     = (fun link : string * string => link.1)
         <$> last (List.filter (fun link => String.eqb link.2 rel) links).
Proof.
  intros Hwf.
  assert (Hall : rel_regex_findall (link_header links) = links)
    by (apply findall_from_links; [exact Hwf | lia]).
  split; [exact Hall|].
  unfold rels_of_link. rewrite Hall, fold_insert_lookup.
  destruct (last _); reflexivity.
Qed.

Lemma link_header_is_read_back_witness :
  let links := [(packages_url_2, "next"); (packages_url, "last");
                (packages_url, "next")] in
  rel_regex_findall (link_header links) = links
  /\ rels_of_link (link_header links) !! "next" = Some packages_url.
Proof.
  intros links.
  apply (link_header_is_read_back links "next").
  repeat constructor; try discriminate; vm_compute;
    repeat constructor.
Defined.

(** ** The URL of a deletion and the dispatch on the account type *)

Lemma str_injective (a b : Z) : str a = str b -> a = b.
Proof.
  unfold str. intros H.
  assert (Hnonnil : forall z, Z.to_int z <> Decimal.Pos Decimal.Nil
                              /\ Z.to_int z <> Decimal.Neg Decimal.Nil).
  { intros [|p|p]; cbn; split; try discriminate; intros [= Hp];
      apply (DecimalPos.Unsigned.to_uint_nonnil p Hp). }
  apply DecimalZ.to_int_inj.
  destruct (Hnonnil a) as [Ha1 Ha2]. destruct (Hnonnil b) as [Hb1 Hb2].
  pose proof (NilZero.isi (Z.to_int a) Ha1 Ha2) as Ia.
  pose proof (NilZero.isi (Z.to_int b) Hb1 Hb2) as Ib.
  rewrite H in Ia. congruence.
Qed.

Lemma append_cancel_l (p a b : string) : p +:+ a = p +:+ b -> a = b.
Proof.
  induction p as [|c p IH]; [trivial|]. cbn. intros [= H]. apply IH, H.
Qed.

Lemma app_sep_inj (c : ascii) (A : list ascii) : forall B R S,
  ~ In c A -> ~ In c B -> A ++ c :: R = B ++ c :: S -> A = B /\ R = S.
Proof.
  induction A as [|a A IH]; intros [|b B] R S HA HB H; cbn in H.
  - injection H as ->. split; reflexivity.
  - injection H as -> _. exfalso. apply HB. left. reflexivity.
  - injection H as -> _. exfalso. apply HA. left. reflexivity.
  - injection H as -> H.
    destruct (IH B R S) as [-> ->];
      [intros Hin; apply HA; right; exact Hin
      |intros Hin; apply HB; right; exact Hin | exact H |].
    split; reflexivity.
Qed.

Lemma encode_image_name_no_slash name :
  ~ In "/"%char (list_ascii_of_string (encode_image_name name)).
Proof.
  unfold encode_image_name. rewrite list_ascii_of_string_of_list_ascii.
  unfold quote_from_bytes. rewrite in_flat_map.
  intros (b & _ & Hc). apply quote_byte_chars in Hc.
  destruct Hc as [Hc|Hc]; discriminate Hc.
Qed.

Lemma encode_image_name_strip name1 name2 :
  encode_image_name name1 = encode_image_name name2 ->
  strip name1 = strip name2.
Proof.
  unfold encode_image_name. intros H.
  apply (f_equal list_ascii_of_string) in H.
  rewrite !list_ascii_of_string_of_list_ascii in H.
  apply (f_equal unquote_to_bytes) in H. rewrite !unquote_quote in H.
  apply (f_equal string_of_list_ascii) in H.
  rewrite !string_of_list_ascii_of_string in H. exact H.
Qed.

(** Two deletions of a personal account go to the same URL exactly when
    they are for the same version id and for image names that are alike
    once stripped: the URL tells every version of every image apart. *)
Theorem deletion_urls_tell_versions_apart name1 id1 name2 id2 :
  delete_package_versions_url name1 id1 = delete_package_versions_url name2 id2
  <-> strip name1 = strip name2 /\ id1 = id2.
Proof.
  split.
  - unfold delete_package_versions_url. intros H.
    apply append_cancel_l, append_cancel_l in H.
    apply (f_equal list_ascii_of_string) in H.
    rewrite !list_ascii_of_string_append in H.
    cbn [list_ascii_of_string app] in H.
    apply app_sep_inj in H as [Hname Hid];
      [|apply encode_image_name_no_slash | apply encode_image_name_no_slash].
    split.
    + apply encode_image_name_strip.
      rewrite <- (string_of_list_ascii_of_string (encode_image_name name1)),
        Hname.
      apply string_of_list_ascii_of_string.
    + injection Hid as Hid. apply str_injective.
      rewrite <- (string_of_list_ascii_of_string (str id1)), Hid.
      apply string_of_list_ascii_of_string.
  - intros [Hname ->]. unfold delete_package_versions_url, encode_image_name.
    rewrite Hname. reflexivity.
Qed.

(** An organisation name that [validate_org_name] let through for the
    account type never trips the assertion of [GithubAPI.delete_package];
    for an organisation account the validator returns the name as given,
    never [None]. *)
Theorem validated_org_name_passes_the_assertion int_of_str account_type v
    org_name image_name version_id http_client :
  validate_org_name (Some account_type) v = Returns org_name ->
  is_Some (GithubAPI.delete_package int_of_str account_type org_name
             image_name version_id http_client)
  /\ (account_type = ORG -> org_name = Some v /\ v <> EmptyString).
Proof.
  unfold validate_org_name, GithubAPI.delete_package.
  destruct account_type, v as [|c v]; intros [= <-]; split;
    try (eexists; reflexivity); try discriminate.
  intros _. split; [reflexivity | discriminate].
Qed.

Lemma validated_org_name_passes_the_assertion_witness :
  is_Some (GithubAPI.delete_package int_decimal ORG (Some "snok") "app-a" 301
             deleting_client)
  /\ (ORG = ORG -> Some "snok" = Some "snok" /\ "snok" <> EmptyString).
Proof.
  apply (validated_org_name_passes_the_assertion int_decimal ORG "snok"
           (Some "snok") "app-a" 301 deleting_client).
  reflexivity.
Defined.

(** ** The package tasks of [main] *)

Section MainTasks.

Variable fnmatch : string -> string -> bool.

Lemma inner_loop_appends_matches package_name (image_names : list string) :
  forall tasks,
  fold_left
    (fun tasks image_name =>
       if fnmatch package_name image_name then tasks ++ [image_name]
       else tasks) image_names tasks
  = tasks ++ List.filter (fnmatch package_name) image_names.
Proof.
  induction image_names as [|image_name rest IH]; intros tasks;
    cbn [fold_left List.filter]; [rewrite app_nil_r; reflexivity|].
  rewrite IH.
  destruct (fnmatch package_name image_name);
    [rewrite <- app_assoc|]; reflexivity.
Qed.

Lemma main_tasks_flat_map inputs packages :
  main_tasks fnmatch inputs packages
  = flat_map (fun package =>
                List.filter (fnmatch (PackageResponse.name package))
                  (Inputs.image_names inputs)) packages.
Proof.
  unfold main_tasks.
  assert (H : forall tasks,
    fold_left
      (fun tasks package =>
         fold_left
           (fun tasks image_name =>
              if fnmatch (PackageResponse.name package) image_name
              then tasks ++ [image_name] else tasks)
           (Inputs.image_names inputs) tasks) packages tasks
    = tasks ++ flat_map (fun package =>
                List.filter (fnmatch (PackageResponse.name package))
                  (Inputs.image_names inputs)) packages).
  { induction packages as [|package rest IH]; intros tasks;
      cbn [fold_left flat_map]; [rewrite app_nil_r; reflexivity|].
    rewrite inner_loop_appends_matches, IH, <- app_assoc. reflexivity. }
  apply (H []).
Qed.

Lemma filter_equal_of_filter pattern package_name (image_names : list string) :
  List.filter (String.eqb pattern)
    (List.filter (fnmatch package_name) image_names)
  = if fnmatch package_name pattern
    then List.filter (String.eqb pattern) image_names
    else [].
Proof.
  induction image_names as [|image_name rest IH]; cbn [List.filter].
  - destruct (fnmatch package_name pattern); reflexivity.
  - destruct (String.eqb_spec pattern image_name) as [<-|Hne].
    + destruct (fnmatch package_name pattern) eqn:Hm; cbn [List.filter].
      * rewrite String.eqb_refl, IH. reflexivity.
      * exact IH.
    + destruct (fnmatch package_name image_name); cbn [List.filter];
        [destruct (String.eqb_spec pattern image_name); [contradiction|]|];
        exact IH.
Qed.

(** [main] creates one package task for every package and configured image
    name that match, and gives the task the configured image name, wild
    cards and all, not the name of the package: every task carries one of
    the configured names, and a name that matches [k] packages is handed to
    [k] tasks (times the number of times it is configured). *)
Theorem package_tasks_carry_the_pattern inputs packages pattern :
  (forall task,
     In task (main_tasks fnmatch inputs packages) ->
     In task (Inputs.image_names inputs))
  /\ List.length (List.filter (String.eqb pattern)
                    (main_tasks fnmatch inputs packages))
     = (List.length
          (List.filter
             (fun package => fnmatch (PackageResponse.name package) pattern)
             packages)
        * List.length (List.filter (String.eqb pattern)
                         (Inputs.image_names inputs)))%nat.
Proof.
  rewrite main_tasks_flat_map. split.
  - intros task Hin. apply in_flat_map in Hin as (package & _ & Hin).
    apply List.filter_In in Hin as [Hin _]. exact Hin.
  - induction packages as [|package rest IH]; [reflexivity|].
    cbn [flat_map List.filter].
    rewrite List.filter_app, List.length_app, IH, filter_equal_of_filter.
    destruct (fnmatch (PackageResponse.name package) pattern);
      cbn [List.length]; lia.
Qed.

End MainTasks.

(** The pattern [app-*] matches two of three packages and is handed to two
    tasks. *)
Example two_tasks_for_one_pattern :
  main_tasks wildcard_match (sample_inputs 0 false [] [] true)
    [sample_package 1 "app-a"; sample_package 2 "web"; sample_package 3 "app-b"]
  = ["app-*"; "app-*"].
Proof. reflexivity. Qed.

Lemma deletion_urls_tell_versions_apart_witness :
  strip " org/app-a" = strip "org/app-a " /\ 301 = 301.
Proof.
  apply (proj1 (deletion_urls_tell_versions_apart " org/app-a" 301
                  "org/app-a " 301)).
  vm_compute. reflexivity.
Defined.

Lemma encode_image_name_injective_up_to_strip_witness :
  encode_image_name " org/app-a" = encode_image_name "org/app-a ".
Proof.
  apply (proj2 (encode_image_name_injective_up_to_strip " org/app-a"
                  "org/app-a ")).
  vm_compute. reflexivity.
Defined.

Lemma encoded_image_name_is_one_path_segment_witness :
  ("%"%char <> "/"%char) /\ ("2"%char <> "/"%char).
Proof.
  split.
  - apply (encoded_image_name_is_one_path_segment "org/app" "%"%char).
    vm_compute. right. right. right. left. reflexivity.
  - apply (encoded_image_name_is_one_path_segment "org/app" "2"%char).
    vm_compute. do 4 right. left. reflexivity.
Defined.

Lemma package_tasks_carry_the_pattern_witness :
  In "app-*" (Inputs.image_names (sample_inputs 0 false [] [] true)).
Proof.
  apply (proj1 (package_tasks_carry_the_pattern wildcard_match
                  (sample_inputs 0 false [] [] true)
                  [sample_package 1 "app-a"; sample_package 2 "web"]
                  "app-*") "app-*").
  vm_compute. left. reflexivity.
Defined.
